(** * Spatial filtering dashboard: the filters and the session callbacks

    A shallow embedding of [Assignment2.py].  The five [apply_*_filter]
    functions are one-line calls into OpenCV, SciPy and NumPy; the library
    primitives they call are written out below, each in a module named after
    the Python module it comes from, on 8-bit single-channel images.  The
    callbacks of [SpatialFilteringApp] are functions on a record holding the
    attributes the callbacks read and write. *)

From Stdlib Require Import ZArith List String Ascii Bool Lia QArith Qround.
From Stdlib Require Import DecimalString Lqa.
Import ListNotations.

Local Open Scope Z_scope.

(** ** Rasters *)

(** A grayscale image as [cv2.imread(path, cv2.IMREAD_GRAYSCALE)] returns it:
    rows of [uint8] samples, each sample a [Z] in [0, 255]. *)
Definition Raster := list (list Z).

Definition height (img : Raster) : Z := Z.of_nat (List.length img).

Definition width (img : Raster) : Z :=
  match img with
  | [] => 0
  | row :: _ => Z.of_nat (List.length row)
  end.

Definition is_uint8 (v : Z) : Prop := 0 <= v <= 255.

(** A well-shaped image: at least one row, at least one column, every row as
    long as the first, every sample a [uint8]. *)
Definition valid_raster (img : Raster) : Prop :=
  0 < height img /\ 0 < width img /\
  Forall (fun row => Z.of_nat (List.length row) = width img) img /\
  Forall (Forall is_uint8) img.

Definition pixel (img : Raster) (i j : Z) : Z :=
  nth (Z.to_nat j) (nth (Z.to_nat i) img []) 0.

(** [range(n)] *)
Definition range (n : Z) : list Z := map Z.of_nat (seq 0 (Z.to_nat n)).

(** The [rows]-by-[cols] window around [(i, j)], flattened in row-major
    order; [ext p len] maps a coordinate that may lie outside [0, len) to the
    one the border mode reads instead.  The window starts [rows / 2] above
    and [cols / 2] left of the centre (the anchor both libraries use by
    default). *)
Definition window (ext : Z -> Z -> Z) (img : Raster) (rows cols i j : Z)
  : list Z :=
  flat_map (fun di =>
    map (fun dj =>
      pixel img (ext (i + di - rows / 2) (height img))
                (ext (j + dj - cols / 2) (width img)))
      (range cols))
    (range rows).

(** The square neighbourhood of side [k]. *)
Definition neighbourhood (ext : Z -> Z -> Z) (img : Raster) (k i j : Z)
  : list Z := window ext img k k i j.

(** An image of the shape of [img] whose sample at [(i, j)] is [f i j]. *)
Definition tabulate (img : Raster) (f : Z -> Z -> Z) : Raster :=
  map (fun i => map (fun j => f i j) (range (width img))) (range (height img)).

(** Error-propagating map: the first failing element fails the whole. *)
Fixpoint mapM {A B : Type} (f : A -> option B) (l : list A) : option (list B) :=
  match l with
  | [] => Some []
  | a :: l' =>
      match f a with
      | None => None
      | Some b =>
          match mapM f l' with
          | None => None
          | Some bs => Some (b :: bs)
          end
      end
  end.

(** One output sample per input coordinate. *)
Definition per_pixel (img : Raster) (f : Z -> Z -> option Z) : option Raster :=
  mapM (fun i => mapM (fun j => f i j) (range (width img))) (range (height img)).

Definition count (v : Z) (x : list Z) : Z :=
  Z.of_nat (count_occ Z.eq_dec x v).

(** ** NumPy *)
Module np.

(** [x.max()], with [-1] for an empty array so that [bincount] of it is
    empty. *)
Definition amax (x : list Z) : Z := fold_right Z.max (-1) x.

(** [np.bincount(x)]: entry [v] is the number of occurrences of [v] in [x],
    for [v] from [0] to [x.max()]. *)
Definition bincount (x : list Z) : list Z :=
  map (fun v => count v x) (range (amax x + 1)).

(** Scan for [argmax]: [best] is the index of the largest entry seen so far
    and [m] its value; a later entry replaces it only when strictly
    larger, so the first maximum wins. *)
Fixpoint argmax_from (l : list Z) (idx best m : Z) : Z :=
  match l with
  | [] => best
  | c :: l' =>
      if m <? c then argmax_from l' (idx + 1) idx c
      else argmax_from l' (idx + 1) best m
  end.

(** [a.argmax()]: index of the first maximum; [ValueError] on an empty
    array. *)
Definition argmax (a : list Z) : option Z :=
  match a with
  | [] => None
  | c :: l => Some (argmax_from l 1 0 c)
  end.

(** [.astype(np.uint8)] of an integer value. *)
Definition astype_uint8 (v : Z) : Z := v mod 256.

End np.

(** ** SciPy *)
Module ndimage.

(** Border mode ['reflect'] (the default): [d c b a | a b c d | d c b a],
    the image mirrored about the edge of its last sample, repeated with
    period [2 * len]. *)
Definition reflect (p len : Z) : Z :=
  if len <=? 1 then 0
  else
    let q := p mod (2 * len) in
    if q <? len then q else 2 * len - 1 - q.

(** [ndimage.generic_filter(img, function, size=size)]: [function] is
    called on the flattened [size]-by-[size] neighbourhood of every sample
    and its result stored in an array of the input's type.  A size below
    one is refused. *)
Definition generic_filter (img : Raster) (function : list Z -> option Z)
    (size : Z) : option Raster :=
  if size <? 1 then None
  else
    per_pixel img (fun i j =>
      option_map np.astype_uint8
        (function (neighbourhood reflect img size i j))).

End ndimage.

(** ** The mode filter *)

(** [lambda x: np.bincount(x.astype(int)).argmax()] *)
Definition mode_of (x : list Z) : option Z := np.argmax (np.bincount x).

Definition apply_mode_filter (img : Raster) (ksize : Z) : option Raster :=
  ndimage.generic_filter img mode_of ksize.

(** ** OpenCV *)
Module cv2.

(** [BORDER_REPLICATE]: [a a a | a b c d | d d d]. *)
Definition BORDER_REPLICATE (p len : Z) : Z :=
  if p <? 0 then 0 else if len <=? p then len - 1 else p.

(** [BORDER_REFLECT_101], which is [BORDER_DEFAULT]: [d c b | a b c d | c b a],
    the image mirrored about the centre of its last sample, repeated with
    period [2 * len - 2]. *)
Definition BORDER_REFLECT_101 (p len : Z) : Z :=
  if len <=? 1 then 0
  else
    let q := p mod (2 * len - 2) in
    if q <? len then q else 2 * len - 2 - q.

(** The border mode of [blur], [filter2D], [Laplacian] and [Sobel] when none
    is passed. *)
Definition BORDER_DEFAULT := BORDER_REFLECT_101.

(** The two sample types the program uses: [uint8] and [int16]. *)
Inductive depth := CV_8U | CV_16S.

(** [saturate_cast<uchar>] and [saturate_cast<short>] of an integer. *)
Definition saturate_cast (d : depth) (v : Z) : Z :=
  match d with
  | CV_8U => Z.max 0 (Z.min 255 v)
  | CV_16S => Z.max (-32768) (Z.min 32767 v)
  end.

(** [cvRound]: to the nearest integer, a tie to the even one. *)
Definition cvRound (q : Q) : Z :=
  let f := Qfloor q in
  match Qcompare (q - inject_Z f) (1 # 2) with
  | Lt => f
  | Gt => f + 1
  | Eq => if Z.even f then f else f + 1
  end.

(** The sum of the samples of a window. *)
Definition sum (l : list Z) : Z := fold_right Z.add 0 l.

(** [cv2.blur(img, (kw, kh))]: the normalized box filter, the window sum
    divided by the window area and rounded to nearest.  With an odd area no
    quotient lies half-way between two integers.  An empty window is
    refused.  Two things the library does are left out: it refuses an image
    without rows or columns, and with an area that is a power of two (sizes
    2, 4, 8, 16) it returns [(sum + area / 2 + 1) / area], which is one more
    than the value here where [sum + area / 2 + 1] is a multiple of the
    area.  The definition is the library's for the sizes the slider can
    store, on a well-shaped image. *)
Definition blur (img : Raster) (ksize : Z * Z) : option Raster :=
  let (kw, kh) := ksize in
  if (kw <? 1) || (kh <? 1) then None
  else
    Some (tabulate img (fun i j =>
      saturate_cast CV_8U
        ((2 * sum (window BORDER_DEFAULT img kh kw i j) + kw * kh)
           / (2 * (kw * kh))))).

(** Insertion sort, for the median of a window. *)
Fixpoint insert (v : Z) (l : list Z) : list Z :=
  match l with
  | [] => [v]
  | u :: l' => if v <=? u then v :: l else u :: insert v l'
  end.

Definition sort (l : list Z) : list Z := fold_right insert [] l.

(** The middle element of the sorted window. *)
Definition median (l : list Z) : Z :=
  nth (List.length l / 2) (sort l) 0.

(** [cv2.medianBlur(img, ksize)]: asserts [ksize % 2 == 1] (the remainder
    of C, which is [-1] for a negative odd size), copies the image for
    [ksize <= 1], else takes the median of every neighbourhood, the border
    replicated. *)
Definition medianBlur (img : Raster) (ksize : Z) : option Raster :=
  if negb (Z.rem ksize 2 =? 1) then None
  else if ksize <=? 1 then Some img
  else
    Some (tabulate img (fun i j =>
      median (neighbourhood BORDER_REPLICATE img ksize i j))).

(** The kernel entries times the window samples, summed. *)
Definition dot (k x : list Z) : Z :=
  sum (map (fun kx => fst kx * snd kx) (combine k x)).

(** [cv2.filter2D] with a 3-by-3 kernel given in row-major order: the
    correlation of the image with the kernel, cast to the destination
    depth with saturation. *)
Definition filter2D (img : Raster) (ddepth : depth) (kernel : list Z)
  : Raster :=
  tabulate img (fun i j =>
    saturate_cast ddepth (dot kernel (window BORDER_DEFAULT img 3 3 i j))).

(** The two aperture tables of [cv::Laplacian]: the first for [ksize = 1],
    the second for [ksize = 3]. *)
Definition Laplacian_K1 : list Z := [0; 1; 0; 1; -4; 1; 0; 1; 0].
Definition Laplacian_K3 : list Z := [2; 0; 2; 0; -8; 0; 2; 0; 2].

(** [cv2.Laplacian(img, ddepth, ksize=ksize)] for the apertures filtered
    with a fixed 3-by-3 table; the larger apertures, which go through
    separable derivative filters, are left out. *)
Definition Laplacian (img : Raster) (ddepth : depth) (ksize : Z)
  : option Raster :=
  if ksize =? 1 then Some (filter2D img ddepth Laplacian_K1)
  else if ksize =? 3 then Some (filter2D img ddepth Laplacian_K3)
  else None.

(** The 3-by-3 Sobel tables for the derivative along x and along y. *)
Definition Sobel_X3 : list Z := [-1; 0; 1; -2; 0; 2; -1; 0; 1].
Definition Sobel_Y3 : list Z := [-1; -2; -1; 0; 0; 0; 1; 2; 1].

(** [cv2.Sobel(img, ddepth, dx, dy, ksize=3)] for the two first
    derivatives; other orders and apertures are left out. *)
Definition Sobel (img : Raster) (ddepth : depth) (dx dy ksize : Z)
  : option Raster :=
  if negb (ksize =? 3) then None
  else if (dx =? 1) && (dy =? 0) then Some (filter2D img ddepth Sobel_X3)
  else if (dx =? 0) && (dy =? 1) then Some (filter2D img ddepth Sobel_Y3)
  else None.

(** [cv2.convertScaleAbs(src)]: [saturate_cast<uchar>(|src|)]. *)
Definition convertScaleAbs (src : Raster) : Raster :=
  map (map (fun v => saturate_cast CV_8U (Z.abs v))) src.

(** Two images of one shape combined sample by sample. *)
Definition map2 (f : Z -> Z -> Z) (a b : Raster) : Raster :=
  map (fun rows => map (fun ab => f (fst ab) (snd ab))
                       (combine (fst rows) (snd rows)))
      (combine a b).

(** [cv2.subtract(a, b)] on 8-bit images: [saturate_cast<uchar>(a - b)]. *)
Definition subtract (a b : Raster) : Raster :=
  map2 (fun x y => saturate_cast CV_8U (x - y)) a b.

(** [cv2.addWeighted(a, alpha, b, beta, gamma)] on 8-bit images:
    [saturate_cast<uchar>(a * alpha + b * beta + gamma)]. *)
Definition addWeighted (a : Raster) (alpha : Q) (b : Raster) (beta gamma : Q)
  : Raster :=
  map2 (fun x y =>
          saturate_cast CV_8U
            (cvRound (inject_Z x * alpha + inject_Z y * beta + gamma)%Q))
       a b.

End cv2.

(** ** The filters of the program *)

(** Each filter returns [None] where the library call in it raises. *)

Definition apply_mean_filter (img : Raster) (ksize : Z) : option Raster :=
  cv2.blur img (ksize, ksize).

Definition apply_median_filter (img : Raster) (ksize : Z) : option Raster :=
  cv2.medianBlur img ksize.

Definition apply_laplacian_filter (img : Raster) : option Raster :=
  match cv2.Laplacian img cv2.CV_16S 3 with
  | None => None
  | Some lap =>
      let lap_abs := cv2.convertScaleAbs lap in
      Some (cv2.subtract img lap_abs)
  end.

Definition apply_sobel_filter (img : Raster) : option Raster :=
  match cv2.Sobel img cv2.CV_16S 1 0 3 with
  | None => None
  | Some sobelx =>
      match cv2.Sobel img cv2.CV_16S 0 1 3 with
      | None => None
      | Some sobely =>
          let abs_sobelx := cv2.convertScaleAbs sobelx in
          let abs_sobely := cv2.convertScaleAbs sobely in
          Some (cv2.addWeighted abs_sobelx (1 # 2) abs_sobely (1 # 2) 0)
      end
  end.

(** ** Strings, paths and dictionaries *)

Local Open Scope string_scope.

(** The line feed of the two-line texts. *)
Definition nl : string := String "010"%char "".

(** [str(n)] *)
Definition str (n : Z) : string := NilZero.string_of_int (Z.to_int n).

(** [s.replace(old, new)] for a non-empty [old]: every occurrence, left to
    right, not overlapping.  [skip] counts the characters of a matched
    occurrence still to be dropped. *)
Fixpoint replace_from (old new : string) (skip : nat) (s : string) : string :=
  match s with
  | "" => ""
  | String c s' =>
      match skip with
      | S n => replace_from old new n s'
      | O =>
          if prefix old s
          then new ++ replace_from old new (String.length old - 1) s'
          else String c (replace_from old new O s')
      end
  end.

Definition replace (s old new : string) : string := replace_from old new O s.

(** The text after the last ['/'] of [s]; [acc] is the text since the last
    one seen. *)
Fixpoint after_last_slash (s acc : string) : string :=
  match s with
  | "" => acc
  | String c s' =>
      if Ascii.eqb c "/"%char then after_last_slash s' ""
      else after_last_slash s' (acc ++ String c "")
  end.

(** [Path(path).name] of the path of a file. *)
Definition Path_name (path : string) : string := after_last_slash path "".

(** [name.rfind('.')], [None] for [-1]. *)
Fixpoint rfind_dot (name : string) (i : nat) (last : option nat) : option nat :=
  match name with
  | "" => last
  | String c name' =>
      rfind_dot name' (S i) (if Ascii.eqb c "."%char then Some i else last)
  end.

(** [Path(path).stem]: the name without its last suffix; a dot that starts
    or ends the name does not start a suffix. *)
Definition Path_stem (path : string) : string :=
  let name := Path_name path in
  match rfind_dot name O None with
  | Some i =>
      if (0 <? i)%nat && (i <? String.length name - 1)%nat
      then substring 0 i name
      else name
  | None => name
  end.

(** [os.path.join(a, b)] *)
Definition os_path_join (a b : string) : string :=
  if prefix "/" b then b
  else if (a =? "") || (String.eqb (substring (String.length a - 1) 1 a) "/")
  then a ++ b
  else a ++ "/" ++ b.

(** A Python [dict] with string keys: the items in insertion order, no key
    twice. *)
Definition dict (V : Type) := list (string * V).

(** [d[k] = v]: an existing key keeps its place and takes the new value, a
    new key goes last. *)
Fixpoint dict_set {V : Type} (d : dict V) (k : string) (v : V) : dict V :=
  match d with
  | [] => [(k, v)]
  | (k', v') :: d' =>
      if k' =? k then (k', v) :: d' else (k', v') :: dict_set d' k v
  end.

(** [d.get(k)] *)
Fixpoint dict_get {V : Type} (d : dict V) (k : string) : option V :=
  match d with
  | [] => None
  | (k', v') :: d' => if k' =? k then Some v' else dict_get d' k
  end.

Definition keys {V : Type} (d : dict V) : list string := map fst d.

(** ** The session *)

(** The attributes of [SpatialFilteringApp] that the callbacks read and
    write.  [status] is the text of the status label, [display] the
    arguments of the last [show_result] call. *)
Record App := mkApp {
  original_img : option Raster;
  processing_base_img : option Raster;
  current_name : string;
  kernel_size_var : Z;
  results : dict Raster;
  noise_var : string;
  method_var : string;
  smooth_before_sharp_var : Z;
  status : string;
  display : option (string * option Raster * Raster)
}.

(** The state [__init__] leaves. *)
Definition init_app : App := {|
  original_img := None;
  processing_base_img := None;
  current_name := "";
  kernel_size_var := 3;
  results := [];
  noise_var := "None";
  method_var := "Mean Filter";
  smooth_before_sharp_var := 0;
  status := "Ready. Please upload an image to begin.";
  display := None
|}.

(** What the user gets to see of a callback besides the display: nothing, a
    message box, or (for a library call that raised) the traceback Tk prints
    before it carries on. *)
Inductive feedback :=
| quiet
| showerror (title message : string)
| showwarning (title message : string)
| showinfo (title message : string)
| raised.

(** A description of a filter in [filter_kernels]: a fixed text or a function
    of the kernel size. *)
Inductive kernel_text :=
| text (t : string)
| callable (f : Z -> string).

(** [self.filter_kernels] *)
Definition filter_kernels : dict kernel_text := [
  ("Laplacian Sharpening",
   text ("Kernel: [[0, 1, 0], [1, -4, 1], [0, 1, 0]]" ++ nl
         ++ "(Subtracted from Original)"));
  ("Sobel Edge Detection",
   text ("Sobel X: [[-1, 0, 1], [-2, 0, 2], [-1, 0, 1]]" ++ nl
         ++ "Sobel Y: [[-1,-2,-1], [0,0,0], [1,2,1]]"));
  ("Mean Filter",
   callable (fun k =>
     "Kernel: 1/" ++ str (k * k) ++ " * ones(" ++ str k ++ "," ++ str k ++ ")"));
  ("Median Filter",
   text "Non-linear: Takes median value in KxK neighborhood.");
  ("Mode Filter",
   text "Non-linear: Takes most frequent value in KxK neighborhood.")
].

(** [self.status.config(text=msg)] *)
Definition set_status (s : App) (msg : string) : App :=
  mkApp (original_img s) (processing_base_img s) (current_name s)
        (kernel_size_var s) (results s) (noise_var s) (method_var s)
        (smooth_before_sharp_var s) msg (display s).

(** The display replaced by the two-panel figure of [title], [left_image] and
    [right_image]. *)
Definition show_result (s : App) (title : string) (left_image : option Raster)
    (right_image : Raster) : App :=
  mkApp (original_img s) (processing_base_img s) (current_name s)
        (kernel_size_var s) (results s) (noise_var s) (method_var s)
        (smooth_before_sharp_var s) (status s)
        (Some (title, left_image, right_image)).

(** [round(float(val))]: Python rounds a tie to the even integer, as
    [cvRound] does. *)
Definition py_round (val : Q) : Z := cv2.cvRound val.

(** The slider callback: the position rounded, an even value raised by one,
    stored in [kernel_size_var] (and shown in the label next to the
    slider). *)
Definition update_kernel_label (s : App) (val : Q) : App :=
  let ksize := py_round val in
  let ksize := ksize + (if (ksize mod 2 =? 0)%Z then 1 else 0) in
  mkApp (original_img s) (processing_base_img s) (current_name s)
        ksize (results s) (noise_var s) (method_var s)
        (smooth_before_sharp_var s) (status s) (display s).

(** The base image becomes a copy of the original and the results hold the
    original alone. *)
Definition reset_image (s : App) : App * feedback :=
  match original_img s with
  | None => (s, showwarning "Warning" "No image loaded.")
  | Some img =>
      let s1 :=
        mkApp (original_img s) (Some img) (current_name s)
              (kernel_size_var s) [("Original", img)] (noise_var s)
              (method_var s) (smooth_before_sharp_var s) (status s)
              (display s) in
      let s2 := show_result s1 "Original Image" (Some img) img in
      (set_status s2
         "Image reset. All filters will now be applied to the original image.",
       quiet)
  end.

(** [path] is what the file dialog returned (empty when cancelled) and
    [file] what [cv2.imread] reads there ([None] when it cannot). *)
Definition upload_image (s : App) (path : string) (file : option Raster)
  : App * feedback :=
  if path =? "" then (s, quiet)
  else
    match file with
    | None => (s, showerror "Error" "Could not read the image file.")
    | Some img =>
        let s1 :=
          mkApp (Some img) (processing_base_img s) (Path_stem path)
                (kernel_size_var s) (results s) (noise_var s) (method_var s)
                (smooth_before_sharp_var s) (status s) (display s) in
        let (s2, shown) := reset_image s1 in
        (set_status s2
           ("Loaded: " ++ Path_name path ++ ". Base image is now the original."),
         shown)
    end.

(** The keyword arguments of the two [random_noise] calls. *)
Inductive noise_args :=
| gaussian (var : Q)
| s_and_p (amount : Q).

(** [(noisy_img * 255).astype(np.uint8)]: the samples of the float image
    scaled, truncated towards zero and stored as [uint8].  The product is
    the exact one; the code's is rounded to a [float64] first, which can
    carry a product just below an integer up to it. *)
Definition to_uint8 (noisy_img : list (list Q)) : Raster :=
  map (map (fun x =>
    let y := (x * inject_Z 255)%Q in
    np.astype_uint8 (Z.quot (Qnum y) (Zpos (Qden y))))) noisy_img.

(** The [if]/[elif] chain of [add_noise]: the keyword arguments handed to
    [random_noise] and the title, [None] for the final [else]. *)
Definition noise_choice (noise_type : string) : option (noise_args * string) :=
  if noise_type =? "gaussian"
  then Some (gaussian (1 # 100), "Base: Gaussian Noise")
  else if noise_type =? "s&p"
  then Some (s_and_p (5 # 100), "Base: Salt & Pepper Noise")
  else None.

(** [random_noise] draws from NumPy's global generator; [draw] is what it
    computes at this call, as a function of the image and the keyword
    arguments handed to it. *)
Definition add_noise (s : App) (draw : Raster -> noise_args -> list (list Q))
  : App * feedback :=
  match original_img s with
  | None => (s, showwarning "Warning" "Upload an image first.")
  | Some img =>
      let noise_type := noise_var s in
      match noise_choice noise_type with
      | None => (s, showwarning "Warning" "Select a noise type.")
      | Some (args, title) =>
          let noisy_img := draw img args in
          let base := to_uint8 noisy_img in
          let s1 :=
            mkApp (original_img s) (Some base) (current_name s)
                  (kernel_size_var s) (dict_set (results s) title base)
                  (noise_var s) (method_var s) (smooth_before_sharp_var s)
                  (status s) (display s) in
          let s2 := set_status s1 ("Applied " ++ noise_type ++ " noise.") in
          (show_result s2 title (Some img) base, quiet)
      end
  end.

(** The [if]/[elif] chain of [apply_method]: [None] for the final [else],
    otherwise what the selected filter returns. *)
Definition dispatch (method : string) (img_in : Raster) (ksize : Z)
  : option (option Raster) :=
  if method =? "Mean Filter" then Some (apply_mean_filter img_in ksize)
  else if method =? "Median Filter" then Some (apply_median_filter img_in ksize)
  else if method =? "Mode Filter" then Some (apply_mode_filter img_in ksize)
  else if method =? "Laplacian Sharpening" then Some (apply_laplacian_filter img_in)
  else if method =? "Sobel Edge Detection" then Some (apply_sobel_filter img_in)
  else None.

(** The filter of the combobox applied to a copy of the base image, after
    the optional median smoothing; nothing is assigned before every library
    call has returned. *)
Definition apply_method (s : App) : App * feedback :=
  match processing_base_img s with
  | None => (s, showwarning "Warning" "Upload an image first.")
  | Some base =>
      let method := method_var s in
      let ksize := kernel_size_var s in
      let smooth :=
        negb (smooth_before_sharp_var s =? 0)%Z
        && existsb (String.eqb method)
                   ["Laplacian Sharpening"; "Sobel Edge Detection"] in
      match (if smooth then apply_median_filter base 5 else Some base) with
      | None => (s, raised)
      | Some img_in =>
          let status_prefix := if smooth then "Smoothed then " else "" in
          match dispatch method img_in ksize with
          | None => (s, quiet)
          | Some None => (s, raised)
          | Some (Some enhanced) =>
              let title := status_prefix ++ method in
              let s1 :=
                mkApp (original_img s) (processing_base_img s) (current_name s)
                      (kernel_size_var s) (dict_set (results s) title enhanced)
                      (noise_var s) (method_var s) (smooth_before_sharp_var s)
                      (status s) (display s) in
              let s2 := set_status s1 ("Applied: " ++ title) in
              (show_result s2 title (original_img s) enhanced, quiet)
          end
      end
  end.

(** ** The report *)

(** A page of the PDF: the cover with its text lines, or the comparison of
    one entry with the two images shown and the text box under them. *)
Inductive page :=
| cover (lines : list string)
| comparison (suptitle : string) (shown_original : option Raster)
             (shown_processed : Raster) (expression : option string).

Record Pdf := mkPdf { pdf_path : string; pages : list page }.

(** The text box of a comparison page: the description of the filter in
    [filter_kernels], called with the kernel size of the slider when it is a
    function; no box for a name that is not a key. *)
Definition filter_expression (s : App) (clean_name : string) : option string :=
  match dict_get filter_kernels clean_name with
  | None => None
  | Some kernel_text =>
      let kernel_text :=
        match kernel_text with
        | callable f => f (kernel_size_var s)
        | text t => t
        end in
      Some ("Filter Expression:" ++ nl ++ kernel_text)
  end.

(** The body of the loop over [self.results.items()], for one item. *)
Definition entry_pages (s : App) (item : string * Raster) : list page :=
  let (name, proc_img) := item in
  if name =? "Original" then []
  else
    let clean_name := replace name "Smoothed then " "" in
    [comparison ("Analysis: " ++ name) (original_img s) proc_img
                (filter_expression s clean_name)].

(** The report written (its directory created when missing): the file as a
    value, [None] when nothing is written. *)
Definition save_report (s : App) : App * feedback * option Pdf :=
  if (Z.of_nat (List.length (results s)) <=? 1)%Z
  then (s, showwarning "Warning" "No results to save.", None)
  else
    let outdir := "results" in
    let path :=
      os_path_join outdir (current_name s ++ "_Filtering_Report.pdf") in
    let first :=
      cover ["Spatial Filtering Analysis"; "Image: " ++ current_name s] in
    let pdf := mkPdf path (first :: flat_map (entry_pages s) (results s)) in
    (set_status s ("Report saved: " ++ path),
     showinfo "Success" ("PDF report saved to:" ++ nl ++ path),
     Some pdf).

(** ** Sessions *)

(** What can happen to the application: the five buttons and the four
    controls.  The slider hands its position to [update_kernel_label]. *)
Inductive action :=
| UploadImage (path : string) (file : option Raster)
| ResetImage
| AddNoise (draw : Raster -> noise_args -> list (list Q))
| ApplyMethod
| SaveReport
| SelectNoise (value : string)
| SelectMethod (value : string)
| MoveSlider (val : Q)
| CheckSmooth (value : Z).

(** One action: the callback of the button, or the new value of the
    control. *)
Definition step (s : App) (a : action) : App * feedback :=
  match a with
  | UploadImage path file => upload_image s path file
  | ResetImage => reset_image s
  | AddNoise draw => add_noise s draw
  | ApplyMethod => apply_method s
  | SaveReport => fst (save_report s)
  | SelectNoise v =>
      (mkApp (original_img s) (processing_base_img s) (current_name s)
             (kernel_size_var s) (results s) v (method_var s)
             (smooth_before_sharp_var s) (status s) (display s), quiet)
  | SelectMethod v =>
      (mkApp (original_img s) (processing_base_img s) (current_name s)
             (kernel_size_var s) (results s) (noise_var s) v
             (smooth_before_sharp_var s) (status s) (display s), quiet)
  | MoveSlider val => (update_kernel_label s val, quiet)
  | CheckSmooth v =>
      (mkApp (original_img s) (processing_base_img s) (current_name s)
             (kernel_size_var s) (results s) (noise_var s) (method_var s)
             v (status s) (display s), quiet)
  end.

(** The state after a sequence of actions. *)
Definition run (s : App) (acts : list action) : App :=
  fold_left (fun s a => fst (step s a)) acts s.

(** The states the application can be in, from start-up on. *)
Definition reachable (s : App) : Prop := exists acts, s = run init_app acts.

(** A callback failed when it reported an error or a warning, or raised. *)
Definition failed (shown : feedback) : bool :=
  match shown with
  | showerror _ _ | showwarning _ _ | raised => true
  | quiet | showinfo _ _ => false
  end.

(** ** Vocabulary of the properties *)

(** [a] has the shape of [img]: as many rows, each of the width of [img]. *)
Definition shape_of (img a : Raster) : Prop :=
  List.length a = List.length img /\
  forall n, (n < List.length img)%nat ->
            Z.of_nat (List.length (nth n a [])) = width img.

(** The 16-bit intermediates before the cast: the correlation of the image
    with the Laplacian table of aperture 3 and with the two Sobel tables. *)
Definition laplacian_at (img : Raster) (i j : Z) : Z :=
  cv2.dot cv2.Laplacian_K3 (window cv2.BORDER_DEFAULT img 3 3 i j).

Definition sobelx_at (img : Raster) (i j : Z) : Z :=
  cv2.dot cv2.Sobel_X3 (window cv2.BORDER_DEFAULT img 3 3 i j).

Definition sobely_at (img : Raster) (i j : Z) : Z :=
  cv2.dot cv2.Sobel_Y3 (window cv2.BORDER_DEFAULT img 3 3 i j).

(** A window of nine 8-bit samples, taken apart. *)
Ltac nine_samples x :=
  do 9 (destruct x as [|? x]; [discriminate |]);
  destruct x; [| discriminate];
  repeat match goal with
         | F : Forall _ (_ :: _) |- _ => inversion F; subst; clear F
         end;
  unfold is_uint8 in *.

(** Case analysis on everything a callback branches on. *)
Ltac break_match :=
  repeat match goal with
         | |- context [match ?x with _ => _ end] => destruct x eqn:?
         end.

(** What every reachable session satisfies: without an image there are no
    results and no base image; with one, the results start with the image
    under ["Original"], no later entry has that label, and there is a base
    image. *)
Definition consistent (s : App) : Prop :=
  match original_img s with
  | None => results s = [] /\ processing_base_img s = None
  | Some img =>
      (exists rest, results s = ("Original", img) :: rest
                    /\ ~ In "Original" (keys rest))
      /\ processing_base_img s <> None
  end.

(** The callbacks that keep the loaded image: all but a new upload. *)
Definition keeps_image (a : action) : Prop :=
  match a with
  | UploadImage _ _ => False
  | _ => True
  end.

(** A draw of [random_noise] that adds nothing: the image scaled to
    [0, 1]. *)
Definition no_noise (img : Raster) (_ : noise_args) : list (list Q) :=
  map (map (fun v => (inject_Z v / inject_Z 255)%Q)) img.

(** The method names of the combobox. *)
Definition methods : list string :=
  ["Mean Filter"; "Median Filter"; "Mode Filter";
   "Laplacian Sharpening"; "Sobel Edge Detection"]%string.

(** Every sample of the image lies between [lo] and [hi]. *)
Definition within (lo hi : Z) (img : Raster) : Prop :=
  Forall (Forall (fun v => lo <= v <= hi)%Z) img.

(** A border mode never leaves the image: whatever coordinate it is asked
    for, it answers with one of the image. *)
Definition stays_inside (ext : Z -> Z -> Z) : Prop :=
  forall p len, (0 < len)%Z -> (0 <= ext p len < len)%Z.

(** [toggle_controls]: whether the kernel frame with the slider is packed,
    so shown, when it returns. *)
Definition toggle_controls (s : App) : bool :=
  existsb (String.eqb (method_var s))
          ["Mean Filter"; "Median Filter"; "Mode Filter"].

(** What [apply_method] records for a base image and a selection: the title
    and the image, [None] when it records nothing. *)
Definition filtered (base : Raster) (method : string) (ksize smooth_var : Z)
  : option (string * Raster) :=
  let smooth :=
    negb (smooth_var =? 0)%Z
    && existsb (String.eqb method)
               ["Laplacian Sharpening"; "Sobel Edge Detection"] in
  match (if smooth then apply_median_filter base 5 else Some base) with
  | None => None
  | Some img_in =>
      match dispatch method img_in ksize with
      | Some (Some enhanced) =>
          Some ((if smooth then "Smoothed then " else "") ++ method, enhanced)
      | _ => None
      end
  end.

(** The labels an entry of the results can have. *)
Definition labels : list string :=
  ["Original"; "Base: Gaussian Noise"; "Base: Salt & Pepper Noise";
   "Mean Filter"; "Median Filter"; "Mode Filter";
   "Laplacian Sharpening"; "Sobel Edge Detection";
   "Smoothed then Laplacian Sharpening";
   "Smoothed then Sobel Edge Detection"].

(** [a] is a well-shaped image of the height and width of [img]. *)
Definition fits (img a : Raster) : Prop :=
  valid_raster a /\ height a = height img /\ width a = width img.

(** A draw of [random_noise] returns a float image of the shape of its
    input. *)
Definition keeps_shape (draw : Raster -> noise_args -> list (list Q)) : Prop :=
  forall img args,
    map (@List.length Q) (draw img args) = map (@List.length Z) img.

(** The actions the window offers: the file dialog hands over images that
    [cv2.imread] has read, so well-shaped ones; the slider runs from 3 to
    15; the noise keeps the shape of the image. *)
Definition offered (a : action) : Prop :=
  match a with
  | UploadImage _ (Some img) => valid_raster img
  | AddNoise draw => keeps_shape draw
  | MoveSlider val => (3 <= val)%Q /\ (val <= 15)%Q
  | _ => True
  end.

(** What every session driven through the window satisfies, besides
    [consistent]: the kernel size is odd and between 3 and 15, and every
    image held (the original, the base image, the results) is well-shaped
    and of the size of the original. *)
Definition sound (s : App) : Prop :=
  Z.odd (kernel_size_var s) = true /\
  (3 <= kernel_size_var s <= 15)%Z /\
  match original_img s with
  | None => True
  | Some img =>
      valid_raster img /\
      (forall base, processing_base_img s = Some base -> fits img base) /\
      Forall (fun entry => fits img (snd entry)) (results s)
  end.

(** The characters of a string. *)
Definition chars (s : string) : list ascii := list_ascii_of_string s.

(** What the display shows belongs to the session: the left panel is the
    original image and the right panel an image of the results. *)
Definition display_current (s : App) : Prop :=
  match display s with
  | None => True
  | Some (title, left_image, right_image) =>
      left_image = original_img s /\
      exists key, dict_get (results s) key = Some right_image
  end.

(** * Properties *)

Local Open Scope Z_scope.

(** ** The library models on small inputs *)

Example reflect_101_indices :
  map (fun p => cv2.BORDER_REFLECT_101 p 4) [-3; -2; -1; 0; 3; 4; 5; 6]
  = [3; 2; 1; 0; 3; 2; 1; 0].
Proof. reflexivity. Qed.

Example reflect_indices :
  map (fun p => ndimage.reflect p 4) [-3; -2; -1; 0; 3; 4; 5; 6]
  = [2; 1; 0; 0; 3; 3; 2; 1].
Proof. reflexivity. Qed.

Example replicate_indices :
  map (fun p => cv2.BORDER_REPLICATE p 4) [-2; -1; 0; 3; 4; 5]
  = [0; 0; 0; 3; 3; 3].
Proof. reflexivity. Qed.

Example cvRound_ties :
  map cv2.cvRound [1 # 2; 3 # 2; 5 # 2; 7 # 4; -1 # 2]%Q = [0; 2; 2; 2; 0].
Proof. reflexivity. Qed.

Example bincount_argmax :
  np.bincount [3; 1; 1; 3; 0] = [1; 2; 0; 2] /\
  np.argmax [1; 2; 0; 2] = Some 1.
Proof. split; reflexivity. Qed.

(** A uniform image is left as it is by the mean filter and has no edges. *)
Example uniform_gray_scenario :
  let img := [[128; 128; 128; 128]; [128; 128; 128; 128];
              [128; 128; 128; 128]] in
  apply_mean_filter img 3 = Some img /\
  apply_sobel_filter img
  = Some [[0; 0; 0; 0]; [0; 0; 0; 0]; [0; 0; 0; 0]].
Proof. split; vm_compute; reflexivity. Qed.

Example path_parts :
  Path_name "/home/u/pics/lena.test.png" = "lena.test.png"%string /\
  Path_stem "/home/u/pics/lena.test.png" = "lena.test"%string /\
  replace "Smoothed then Sobel Edge Detection" "Smoothed then " ""
  = "Sobel Edge Detection"%string.
Proof. repeat split; reflexivity. Qed.

(** ** Lists, ranges and tabulated images *)

Lemma length_range n : List.length (range n) = Z.to_nat n.
Proof. unfold range. now rewrite length_map, length_seq. Qed.

Lemma nth_range n i d :
  0 <= i < n -> nth (Z.to_nat i) (range n) d = i.
Proof.
  intros Hi. unfold range.
  rewrite nth_indep with (d' := Z.of_nat 0)
    by (rewrite length_map, length_seq; lia).
  rewrite map_nth, seq_nth by lia. lia.
Qed.

Lemma in_range n i : In i (range n) <-> 0 <= i < n.
Proof.
  unfold range. rewrite in_map_iff. split.
  - intros [m [<- Hm]]. apply in_seq in Hm. lia.
  - intros Hi. exists (Z.to_nat i). split; [lia | apply in_seq; lia].
Qed.

Lemma height_tabulate img f : height (tabulate img f) = height img.
Proof.
  unfold tabulate, height. rewrite length_map, length_range.
  apply Z2Nat.id. lia.
Qed.

Lemma width_tabulate img f : width (tabulate img f) = width img.
Proof.
  unfold tabulate. destruct img as [|row img'].
  - reflexivity.
  - replace (range (height (row :: img')))
      with (0 :: map Z.of_nat (seq 1 (List.length img'))).
    + cbn [map width]. rewrite length_map, length_range.
      apply Z2Nat.id. lia.
    + unfold range, height. cbn [List.length]. rewrite Nat2Z.id.
      reflexivity.
Qed.

Lemma nth_map_range {B : Type} (f : Z -> B) n i d :
  0 <= i < n -> nth (Z.to_nat i) (map f (range n)) d = f i.
Proof.
  intros Hi.
  rewrite nth_indep with (d' := f 0) by (rewrite length_map, length_range; lia).
  rewrite map_nth, nth_range by lia. reflexivity.
Qed.

Lemma pixel_tabulate img f i j :
  0 <= i < height img -> 0 <= j < width img ->
  pixel (tabulate img f) i j = f i j.
Proof.
  intros Hi Hj. unfold pixel, tabulate.
  rewrite nth_map_range by lia. now rewrite nth_map_range by lia.
Qed.

Lemma Forall_tabulate (P : Z -> Prop) img f :
  (forall i j, P (f i j)) -> Forall (Forall P) (tabulate img f).
Proof.
  intros H. unfold tabulate.
  apply Forall_map, Forall_forall. intros i _.
  apply Forall_map, Forall_forall. intros j _. apply H.
Qed.

Lemma mapM_total {A B : Type} (f : A -> option B) (g : A -> B) l :
  (forall a, In a l -> f a = Some (g a)) -> mapM f l = Some (map g l).
Proof.
  induction l as [|a l IH]; intros H; simpl.
  - reflexivity.
  - rewrite (H a) by now left.
    rewrite IH by (intros; apply H; now right). reflexivity.
Qed.

Lemma per_pixel_total img f g :
  (forall i j, 0 <= i < height img -> 0 <= j < width img ->
               f i j = Some (g i j)) ->
  per_pixel img f = Some (tabulate img g).
Proof.
  intros H. unfold per_pixel, tabulate.
  apply mapM_total. intros i Hi. apply in_range in Hi.
  apply mapM_total. intros j Hj. apply in_range in Hj. now apply H.
Qed.

(** Every sample read from an 8-bit image is 8-bit, wherever it is read. *)
Lemma pixel_uint8 img i j :
  Forall (Forall is_uint8) img -> is_uint8 (pixel img i j).
Proof.
  intros H. unfold pixel.
  assert (Hrow : Forall is_uint8 (nth (Z.to_nat i) img [])).
  { destruct (nth_in_or_default (Z.to_nat i) img []) as [Hin | ->].
    - rewrite Forall_forall in H. now apply H.
    - constructor. }
  destruct (nth_in_or_default (Z.to_nat j) (nth (Z.to_nat i) img []) 0)
    as [Hin | ->].
  - rewrite Forall_forall in Hrow. now apply Hrow.
  - unfold is_uint8. lia.
Qed.

Lemma window_uint8 ext img rows cols i j :
  Forall (Forall is_uint8) img ->
  Forall is_uint8 (window ext img rows cols i j).
Proof.
  intros H. unfold window. apply Forall_flat_map, Forall_forall.
  intros di _. apply Forall_map, Forall_forall. intros dj _.
  now apply pixel_uint8.
Qed.

Lemma length_window ext img rows cols i j :
  List.length (window ext img rows cols i j) = (Z.to_nat rows * Z.to_nat cols)%nat.
Proof.
  unfold window. rewrite <- (length_range rows).
  induction (range rows) as [|di l IH]; simpl.
  - reflexivity.
  - rewrite length_app, length_map, length_range, IH. reflexivity.
Qed.

(** ** The first maximum of a frequency table *)

Lemma argmax_from_spec l : forall idx best m,
  let r := np.argmax_from l idx best m in
  (r = best /\ Forall (fun c => c <= m) l) \/
  (exists n, r = idx + Z.of_nat n /\ (n < List.length l)%nat /\
             m < nth n l 0 /\
             Forall (fun c => c <= nth n l 0) l /\
             forall n', (n' < n)%nat -> nth n' l 0 < nth n l 0).
Proof.
  induction l as [|c l IH]; intros idx best m; cbn [np.argmax_from].
  - left. split; [reflexivity | constructor].
  - destruct (Z.ltb_spec m c) as [Hlt | Hge].
    + right.
      destruct (IH (idx + 1) idx c)
        as [[Hr Hall] | [n [Hr [Hn [Hc [Hall Hfirst]]]]]].
      * exists O. cbn [nth List.length].
        split; [lia |]. split; [lia |]. split; [lia |]. split.
        -- constructor; [lia | exact Hall].
        -- intros n' Hn'. lia.
      * exists (S n). cbn [nth List.length].
        split; [lia |]. split; [lia |]. split; [lia |]. split.
        -- constructor; [lia | exact Hall].
        -- intros [|n'] Hn'; cbn [nth]; [lia | apply Hfirst; lia].
    + destruct (IH (idx + 1) best m)
        as [[Hr Hall] | [n [Hr [Hn [Hc [Hall Hfirst]]]]]].
      * left. split; [exact Hr | constructor; [lia | exact Hall]].
      * right. exists (S n). cbn [nth List.length].
        split; [lia |]. split; [lia |]. split; [lia |]. split.
        -- constructor; [lia | exact Hall].
        -- intros [|n'] Hn'; cbn [nth]; [lia | apply Hfirst; lia].
Qed.

(** [argmax] returns an index of the array, no entry exceeds the one it
    points at, and every entry before it is strictly smaller. *)
Lemma argmax_spec a :
  a <> [] ->
  exists r, np.argmax a = Some (Z.of_nat r) /\ (r < List.length a)%nat /\
    (forall n, (n < List.length a)%nat -> nth n a 0 <= nth r a 0) /\
    (forall n, (n < r)%nat -> nth n a 0 < nth r a 0).
Proof.
  destruct a as [|c l]; [congruence | intros _]. cbn [np.argmax].
  destruct (argmax_from_spec l 1 0 c)
    as [[Hr Hall] | [n [Hr [Hn [Hc [Hall Hfirst]]]]]];
    rewrite Forall_forall in Hall.
  - exists O. rewrite Hr. cbn [nth List.length].
    split; [reflexivity |]. split; [lia |]. split.
    + intros [|n] Hn; cbn [nth]; [lia |]. apply Hall, nth_In. lia.
    + intros n Hn. lia.
  - exists (S n). rewrite Hr. cbn [nth List.length].
    split; [f_equal; lia |]. split; [lia |]. split.
    + intros [|n'] Hn'; cbn [nth]; [lia |]. apply Hall, nth_In. lia.
    + intros [|n'] Hn'; cbn [nth]; [lia | apply Hfirst; lia].
Qed.

Lemma count_nonneg v x : 0 <= count v x.
Proof. unfold count. lia. Qed.

Lemma count_pos_In v x : 0 < count v x <-> In v x.
Proof.
  unfold count. rewrite (count_occ_In Z.eq_dec). lia.
Qed.

Lemma amax_lower x : -1 <= np.amax x.
Proof.
  induction x as [|v x IH]; unfold np.amax in *; cbn [fold_right]; lia.
Qed.

Lemma amax_upper x : Forall (fun v => v <= np.amax x) x.
Proof.
  induction x as [|v x IH]; constructor.
  - unfold np.amax. cbn [fold_right]. lia.
  - eapply Forall_impl; [| exact IH].
    intros u Hu. unfold np.amax in *. cbn [fold_right]. lia.
Qed.

Lemma amax_In x : x <> [] -> Forall (fun v => 0 <= v) x -> In (np.amax x) x.
Proof.
  induction x as [|v x IH]; [congruence | intros _ Hpos].
  inversion Hpos as [|? ? Hv Hx]; subst.
  change (np.amax (v :: x)) with (Z.max v (np.amax x)).
  destruct (Z.max_spec v (np.amax x)) as [[Hlt ->] | [Hge ->]].
  - right. apply IH; [| exact Hx]. intros ->. cbn in Hlt. lia.
  - now left.
Qed.

Lemma nth_bincount x v :
  0 <= v <= np.amax x -> nth (Z.to_nat v) (np.bincount x) 0 = count v x.
Proof. intros Hv. unfold np.bincount. now rewrite nth_map_range by lia. Qed.

Lemma length_bincount x :
  List.length (np.bincount x) = Z.to_nat (np.amax x + 1).
Proof. unfold np.bincount. now rewrite length_map, length_range. Qed.

(** The value [mode_of] picks from a non-empty window of non-negative
    samples occurs in the window, no value occurs more often, and every
    value that occurs as often is at least as large. *)
Lemma mode_of_spec x :
  x <> [] -> Forall (fun v => 0 <= v) x ->
  exists v, mode_of x = Some v /\ In v x /\
    (forall u, count u x <= count v x) /\
    (forall u, count u x = count v x -> v <= u).
Proof.
  intros Hne Hpos.
  pose proof (amax_In x Hne Hpos) as Hin.
  pose proof (amax_upper x) as Hup. rewrite Forall_forall in Hup.
  assert (Hm : 0 <= np.amax x).
  { rewrite Forall_forall in Hpos. now apply Hpos. }
  destruct (argmax_spec (np.bincount x)) as [r [Hr [Hlen [Hmax Hfirst]]]].
  { intros Hnil. apply (f_equal (@List.length Z)) in Hnil.
    rewrite length_bincount in Hnil. cbn in Hnil. lia. }
  rewrite length_bincount in Hlen.
  assert (Hcr : nth r (np.bincount x) 0 = count (Z.of_nat r) x).
  { rewrite <- (Nat2Z.id r) at 1. apply nth_bincount. lia. }
  assert (Hle : forall u, count u x <= count (Z.of_nat r) x).
  { intros u. destruct (Z_lt_le_dec u 0) as [Hneg | Hnn].
    - replace (count u x) with 0; [apply count_nonneg |].
      symmetry. unfold count. rewrite (proj1 (count_occ_not_In Z.eq_dec x u)); [reflexivity |].
      intros Hu. rewrite Forall_forall in Hpos. apply Hpos in Hu. lia.
    - destruct (Z_lt_le_dec (np.amax x) u) as [Habove | Hbelow].
      + replace (count u x) with 0; [apply count_nonneg |].
        symmetry. unfold count. rewrite (proj1 (count_occ_not_In Z.eq_dec x u)); [reflexivity |].
        intros Hu. apply Hup in Hu. lia.
      + rewrite <- Hcr, <- (nth_bincount x u) by lia.
        apply Hmax. rewrite length_bincount. lia. }
  exists (Z.of_nat r). unfold mode_of. split; [exact Hr |]. split; [| split].
  - apply count_pos_In. apply count_pos_In in Hin.
    specialize (Hle (np.amax x)). lia.
  - exact Hle.
  - intros u Hu. destruct (Z_lt_le_dec u (Z.of_nat r)) as [Hlt | Hge]; [| exact Hge].
    exfalso. assert (Hin' : In u x).
    { apply count_pos_In. rewrite Hu. apply count_pos_In in Hin.
      specialize (Hle (np.amax x)). lia. }
    assert (Hu0 : 0 <= u) by (rewrite Forall_forall in Hpos; now apply Hpos).
    specialize (Hfirst (Z.to_nat u) ltac:(lia)).
    rewrite Hcr, nth_bincount in Hfirst by lia. lia.
Qed.

Lemma valid_nonneg img : valid_raster img -> Forall (Forall is_uint8) img.
Proof. intros [_ [_ [_ H]]]. exact H. Qed.

(** On a well-shaped image and with a size of at least one the mode filter
    returns, at every sample, what [mode_of] picks from the reflected
    neighbourhood; the cast to [uint8] changes nothing. *)
Lemma apply_mode_filter_total img k :
  valid_raster img -> 1 <= k ->
  apply_mode_filter img k =
  Some (tabulate img (fun i j =>
          match mode_of (neighbourhood ndimage.reflect img k i j) with
          | Some v => v
          | None => 0
          end)).
Proof.
  intros Hv Hk. unfold apply_mode_filter, ndimage.generic_filter.
  destruct (Z.ltb_spec k 1) as [Hlt | _]; [lia |].
  apply per_pixel_total. intros i j _ _.
  pose proof (window_uint8 ndimage.reflect img k k i j (valid_nonneg img Hv)) as Hw.
  fold (neighbourhood ndimage.reflect img k i j) in Hw.
  destruct (mode_of_spec (neighbourhood ndimage.reflect img k i j))
    as [v [Hm [Hin _]]].
  - intros Hnil. apply (f_equal (@List.length Z)) in Hnil.
    unfold neighbourhood in Hnil. rewrite length_window in Hnil.
    cbn [List.length] in Hnil. nia.
  - eapply Forall_impl; [| exact Hw]. unfold is_uint8. intros; lia.
  - rewrite Hm. cbn [option_map]. f_equal.
    rewrite Forall_forall in Hw. apply Hw in Hin.
    unfold np.astype_uint8, is_uint8 in *. apply Z.mod_small. lia.
Qed.

(** C1 (as amended).  At every sample of a well-shaped image and for every
    size [k >= 1], the mode filter outputs a value of the [k]-by-[k]
    neighbourhood that no other value outnumbers, and among the values
    occurring equally often the smallest.  In particular a 3-by-3
    neighbourhood that holds 1 and 2 at least twice each yields 1 when 1 and
    2 tie for the highest frequency and 0 occurs less often; the remaining
    cells are otherwise arbitrary. *)
Theorem mode_filter_most_frequent_smallest :
  forall (img : Raster) (k i j : Z),
    valid_raster img -> 1 <= k ->
    0 <= i < height img -> 0 <= j < width img ->
    exists out,
      apply_mode_filter img k = Some out /\
      let w := neighbourhood ndimage.reflect img k i j in
      let v := pixel out i j in
      In v w /\
      (forall u, count u w <= count v w) /\
      (forall u, count u w = count v w -> v <= u) /\
      (k = 3 -> 2 <= count 1 w -> count 2 w = count 1 w ->
       count 0 w < count 1 w -> (forall u, count u w <= count 1 w) ->
       v = 1).
Proof.
  intros img k i j Hv Hk Hi Hj.
  eexists. split; [apply apply_mode_filter_total; assumption |].
  cbv zeta. rewrite pixel_tabulate by assumption.
  pose proof (window_uint8 ndimage.reflect img k k i j (valid_nonneg img Hv)) as Hw.
  fold (neighbourhood ndimage.reflect img k i j) in Hw.
  set (w := neighbourhood ndimage.reflect img k i j) in *.
  destruct (mode_of_spec w) as [v [Hm [Hin [Hmost Hleast]]]].
  - intros Hnil. apply (f_equal (@List.length Z)) in Hnil.
    unfold w, neighbourhood in Hnil. rewrite length_window in Hnil.
    cbn [List.length] in Hnil. nia.
  - eapply Forall_impl; [| exact Hw]. unfold is_uint8. intros; lia.
  - rewrite Hm. repeat split; try assumption.
    intros _ Hone Htie Hzero Htop.
    assert (Hv1 : v <= 1).
    { apply Hleast. specialize (Hmost 1). specialize (Htop v). lia. }
    assert (Hv0 : 0 <= v).
    { rewrite Forall_forall in Hw. apply Hw in Hin. unfold is_uint8 in Hin. lia. }
    assert (Hne : v <> 0).
    { intros ->. specialize (Hmost 1). lia. }
    lia.
Qed.

Lemma mode_filter_most_frequent_smallest_witness :
  exists out,
    apply_mode_filter [[1; 1; 2]; [2; 5; 6]; [7; 8; 9]] 3 = Some out /\
    let w := neighbourhood ndimage.reflect [[1; 1; 2]; [2; 5; 6]; [7; 8; 9]] 3 1 1 in
    let v := pixel out 1 1 in
    In v w /\
    (forall u, count u w <= count v w) /\
    (forall u, count u w = count v w -> v <= u) /\
    (3 = 3 -> 2 <= count 1 w -> count 2 w = count 1 w ->
     count 0 w < count 1 w -> (forall u, count u w <= count 1 w) ->
     v = 1).
Proof.
  apply (mode_filter_most_frequent_smallest
           [[1; 1; 2]; [2; 5; 6]; [7; 8; 9]] 3 1 1).
  - unfold valid_raster. split; [reflexivity |]. split; [reflexivity |].
    split; repeat constructor; unfold is_uint8; lia.
  - lia.
  - unfold height. simpl. lia.
  - unfold width. simpl. lia.
Defined.

(** The tie of the example resolved: 1 and 2 occur twice each, every other
    value once, and the filter yields 1. *)
Example mode_filter_tie_yields_smallest :
  neighbourhood ndimage.reflect [[1; 1; 2]; [2; 5; 6]; [7; 8; 9]] 3 1 1
    = [1; 1; 2; 2; 5; 6; 7; 8; 9] /\
  option_map (fun out => pixel out 1 1)
    (apply_mode_filter [[1; 1; 2]; [2; 5; 6]; [7; 8; 9]] 3) = Some 1.
Proof. split; vm_compute; reflexivity. Qed.

(** C1, the example as stated: with free remaining cells a 3-by-3
    neighbourhood holding 1, 1, 2, 2 need not yield 1.  Five cells of
    value 3 outnumber the tie and the filter yields 3; two cells of value 0
    join the tie and the filter yields 0. *)
Lemma mode_filter_example_counterexample :
  neighbourhood ndimage.reflect [[1; 1; 2]; [2; 3; 3]; [3; 3; 3]] 3 1 1
    = [1; 1; 2; 2; 3; 3; 3; 3; 3] /\
  option_map (fun out => pixel out 1 1)
    (apply_mode_filter [[1; 1; 2]; [2; 3; 3]; [3; 3; 3]] 3) = Some 3 /\
  neighbourhood ndimage.reflect [[1; 1; 2]; [2; 0; 0]; [5; 6; 7]] 3 1 1
    = [1; 1; 2; 2; 0; 0; 5; 6; 7] /\
  option_map (fun out => pixel out 1 1)
    (apply_mode_filter [[1; 1; 2]; [2; 0; 0]; [5; 6; 7]] 3) = Some 0.
Proof. repeat split; vm_compute; reflexivity. Qed.

(** ** Shapes *)

Lemma shape_of_valid img : valid_raster img -> shape_of img img.
Proof.
  intros [_ [_ [Hrows _]]]. split; [reflexivity |].
  intros n Hn. rewrite Forall_forall in Hrows. apply Hrows, nth_In, Hn.
Qed.

Lemma nth_map_default {A B : Type} (f : A -> B) l n d d' :
  (n < List.length l)%nat -> nth n (map f l) d = f (nth n l d').
Proof.
  intros Hn. rewrite nth_indep with (d' := f d') by now rewrite length_map.
  apply map_nth.
Qed.

Lemma shape_of_tabulate img f : shape_of img (tabulate img f).
Proof.
  split.
  - pose proof (height_tabulate img f) as H. unfold height in H. lia.
  - intros n Hn. unfold tabulate.
    rewrite nth_map_default with (d' := 0)
      by (rewrite length_range; unfold height; lia).
    rewrite length_map, length_range. apply Z2Nat.id.
    unfold width. destruct img; lia.
Qed.

Lemma shape_of_map img f a : shape_of img a -> shape_of img (map (map f) a).
Proof.
  intros [Hlen Hrows]. split.
  - now rewrite length_map.
  - intros n Hn. rewrite nth_map_default with (d' := []) by lia.
    rewrite length_map. now apply Hrows.
Qed.

Lemma pixel_map f img i j :
  f 0 = 0 -> pixel (map (map f) img) i j = f (pixel img i j).
Proof.
  intros Hf. unfold pixel.
  change (@nil Z) with (map f []) at 1. rewrite map_nth.
  rewrite <- Hf at 1. apply map_nth.
Qed.

Lemma pixel_map2 f img a b i j :
  shape_of img a -> shape_of img b ->
  0 <= i < height img -> 0 <= j < width img ->
  pixel (cv2.map2 f a b) i j = f (pixel a i j) (pixel b i j).
Proof.
  intros [Hla Hra] [Hlb Hrb] Hi Hj. unfold pixel, cv2.map2, height in *.
  assert (Hn : (Z.to_nat i < List.length img)%nat) by lia.
  specialize (Hra _ Hn). specialize (Hrb _ Hn).
  rewrite nth_map_default with (d' := ([], []))
    by (rewrite length_combine; lia).
  rewrite combine_nth by lia. cbn [fst snd].
  rewrite nth_map_default with (d' := (0, 0))
    by (rewrite length_combine; lia).
  rewrite combine_nth by lia. reflexivity.
Qed.

Lemma Forall_map2 (P : Z -> Prop) f a b :
  (forall x y, P (f x y)) -> Forall (Forall P) (cv2.map2 f a b).
Proof.
  intros H. unfold cv2.map2.
  apply Forall_map, Forall_forall. intros rows _.
  apply Forall_map, Forall_forall. intros xy _. apply H.
Qed.

(** ** Dimensions *)

Lemma odd_rem k : 0 < k -> Z.odd k = true -> Z.rem k 2 = 1.
Proof.
  intros Hk Hodd. rewrite Z.rem_mod_nonneg by lia.
  rewrite Zmod_odd, Hodd. reflexivity.
Qed.

(** C9.  For a well-shaped image and an odd kernel size between 3 and 15 the
    mean, median and mode filters each return an image, and it has the
    height and the width of the input. *)
Theorem smoothing_filters_preserve_dimensions :
  forall (img : Raster) (k : Z),
    valid_raster img -> 3 <= k <= 15 -> Z.odd k = true ->
    exists mean median mode,
      apply_mean_filter img k = Some mean /\
      apply_median_filter img k = Some median /\
      apply_mode_filter img k = Some mode /\
      (height mean = height img /\ width mean = width img) /\
      (height median = height img /\ width median = width img) /\
      (height mode = height img /\ width mode = width img).
Proof.
  intros img k Hv Hk Hodd.
  do 3 eexists. split; [| split; [| split]].
  - unfold apply_mean_filter, cv2.blur.
    destruct (Z.ltb_spec k 1) as [Hlt | _]; [lia |]. cbn [orb]. reflexivity.
  - unfold apply_median_filter, cv2.medianBlur.
    rewrite (odd_rem k) by (lia || assumption). cbn [Z.eqb Pos.eqb negb].
    destruct (Z.leb_spec k 1) as [Hle | _]; [lia |]. reflexivity.
  - apply apply_mode_filter_total; [assumption | lia].
  - repeat split; first [apply height_tabulate | apply width_tabulate].
Qed.

Lemma smoothing_filters_preserve_dimensions_witness :
  exists mean median mode,
    apply_mean_filter [[10; 20; 30]; [40; 250; 60]] 5 = Some mean /\
    apply_median_filter [[10; 20; 30]; [40; 250; 60]] 5 = Some median /\
    apply_mode_filter [[10; 20; 30]; [40; 250; 60]] 5 = Some mode /\
    (height mean = height [[10; 20; 30]; [40; 250; 60]] /\
     width mean = width [[10; 20; 30]; [40; 250; 60]]) /\
    (height median = height [[10; 20; 30]; [40; 250; 60]] /\
     width median = width [[10; 20; 30]; [40; 250; 60]]) /\
    (height mode = height [[10; 20; 30]; [40; 250; 60]] /\
     width mode = width [[10; 20; 30]; [40; 250; 60]]).
Proof.
  apply (smoothing_filters_preserve_dimensions [[10; 20; 30]; [40; 250; 60]] 5).
  - unfold valid_raster. split; [reflexivity |]. split; [reflexivity |].
    split; repeat constructor; unfold is_uint8; lia.
  - lia.
  - reflexivity.
Defined.

(** ** Ranges of the sharpening and edge filters *)

Lemma dot_Laplacian_K3_bound x :
  Forall is_uint8 x -> List.length x = 9%nat ->
  -2040 <= cv2.dot cv2.Laplacian_K3 x <= 2040.
Proof.
  intros Hx Hlen. nine_samples x.
  unfold cv2.dot, cv2.Laplacian_K3, cv2.sum. cbn [combine map fold_right fst snd].
  lia.
Qed.

Lemma dot_Sobel_X3_bound x :
  Forall is_uint8 x -> List.length x = 9%nat ->
  -1020 <= cv2.dot cv2.Sobel_X3 x <= 1020.
Proof.
  intros Hx Hlen. nine_samples x.
  unfold cv2.dot, cv2.Sobel_X3, cv2.sum. cbn [combine map fold_right fst snd].
  lia.
Qed.

Lemma dot_Sobel_Y3_bound x :
  Forall is_uint8 x -> List.length x = 9%nat ->
  -1020 <= cv2.dot cv2.Sobel_Y3 x <= 1020.
Proof.
  intros Hx Hlen. nine_samples x.
  unfold cv2.dot, cv2.Sobel_Y3, cv2.sum. cbn [combine map fold_right fst snd].
  lia.
Qed.

Lemma saturate_uint8 v : is_uint8 (cv2.saturate_cast cv2.CV_8U v).
Proof. unfold is_uint8, cv2.saturate_cast. lia. Qed.

Lemma saturate_int16_small v :
  -32768 <= v <= 32767 -> cv2.saturate_cast cv2.CV_16S v = v.
Proof. unfold cv2.saturate_cast. lia. Qed.

(** The absolute value of a 16-bit image, sample by sample. *)
Lemma pixel_convertScaleAbs src i j :
  pixel (cv2.convertScaleAbs src) i j = Z.min 255 (Z.abs (pixel src i j)).
Proof.
  unfold cv2.convertScaleAbs.
  rewrite pixel_map by reflexivity. unfold cv2.saturate_cast. lia.
Qed.

Lemma pixel_filter2D img kernel i j :
  0 <= i < height img -> 0 <= j < width img ->
  pixel (cv2.filter2D img cv2.CV_16S kernel) i j =
  cv2.saturate_cast cv2.CV_16S
    (cv2.dot kernel (window cv2.BORDER_DEFAULT img 3 3 i j)).
Proof. intros Hi Hj. unfold cv2.filter2D. now rewrite pixel_tabulate. Qed.

(** C6.  On a well-shaped 8-bit image both filters return an image whose
    samples all lie in [0, 255].  The Laplacian and the two Sobel gradients
    fit the 16-bit intermediate without saturation; the sharpened sample is
    the input minus the absolute Laplacian clamped to 255, and 0 where that
    would be negative; the edge sample is the rounded half-sum of the two
    clamped absolute gradients, clamped to [0, 255]. *)
Theorem laplacian_sobel_outputs_saturate :
  forall (img : Raster),
    valid_raster img ->
    exists sharp edges,
      apply_laplacian_filter img = Some sharp /\
      apply_sobel_filter img = Some edges /\
      Forall (Forall is_uint8) sharp /\
      Forall (Forall is_uint8) edges /\
      forall i j, 0 <= i < height img -> 0 <= j < width img ->
        let lap := laplacian_at img i j in
        let gx := sobelx_at img i j in
        let gy := sobely_at img i j in
        (-32768 <= lap <= 32767 /\
         -32768 <= gx <= 32767 /\
         -32768 <= gy <= 32767) /\
        pixel sharp i j =
          Z.max 0 (pixel img i j - Z.min 255 (Z.abs lap)) /\
        pixel edges i j =
          Z.max 0 (Z.min 255
            (cv2.cvRound (inject_Z (Z.min 255 (Z.abs gx)) * (1 # 2)
                          + inject_Z (Z.min 255 (Z.abs gy)) * (1 # 2)
                          + 0)%Q)).
Proof.
  intros img Hv.
  pose proof (valid_nonneg img Hv) as Hu.
  do 2 eexists. split; [reflexivity |]. split; [reflexivity |].
  split; [| split].
  - apply Forall_map2. intros x y. apply saturate_uint8.
  - apply Forall_map2. intros x y. apply saturate_uint8.
  - intros i j Hi Hj.
    pose proof (window_uint8 cv2.BORDER_DEFAULT img 3 3 i j Hu) as Hw.
    pose proof (length_window cv2.BORDER_DEFAULT img 3 3 i j) as Hlen.
    change (Z.to_nat 3 * Z.to_nat 3)%nat with 9%nat in Hlen.
    pose proof (dot_Laplacian_K3_bound _ Hw Hlen) as Hlap.
    pose proof (dot_Sobel_X3_bound _ Hw Hlen) as Hgx.
    pose proof (dot_Sobel_Y3_bound _ Hw Hlen) as Hgy.
    fold (laplacian_at img i j) in Hlap.
    fold (sobelx_at img i j) in Hgx. fold (sobely_at img i j) in Hgy.
    cbv zeta. split; [lia |]. split.
    + unfold cv2.subtract.
      rewrite (pixel_map2 _ img) by
        (assumption || apply shape_of_valid, Hv
         || apply shape_of_map, shape_of_tabulate).
      rewrite pixel_convertScaleAbs, pixel_filter2D by assumption.
      fold (laplacian_at img i j).
      rewrite saturate_int16_small by lia.
      pose proof (pixel_uint8 img i j Hu) as Hp.
      unfold cv2.saturate_cast, is_uint8 in *. lia.
    + unfold cv2.addWeighted.
      rewrite (pixel_map2 _ img) by
        (assumption || apply shape_of_map, shape_of_tabulate).
      rewrite !pixel_convertScaleAbs, !pixel_filter2D by assumption.
      fold (sobelx_at img i j). fold (sobely_at img i j).
      rewrite !saturate_int16_small by lia.
      reflexivity.
Qed.

Lemma laplacian_sobel_outputs_saturate_witness :
  exists sharp edges,
    apply_laplacian_filter [[10; 20; 30]; [40; 250; 60]; [70; 80; 90]]
      = Some sharp /\
    apply_sobel_filter [[10; 20; 30]; [40; 250; 60]; [70; 80; 90]]
      = Some edges /\
    Forall (Forall is_uint8) sharp /\
    Forall (Forall is_uint8) edges /\
    forall i j,
      0 <= i < height [[10; 20; 30]; [40; 250; 60]; [70; 80; 90]] ->
      0 <= j < width [[10; 20; 30]; [40; 250; 60]; [70; 80; 90]] ->
      let lap := laplacian_at [[10; 20; 30]; [40; 250; 60]; [70; 80; 90]] i j in
      let gx := sobelx_at [[10; 20; 30]; [40; 250; 60]; [70; 80; 90]] i j in
      let gy := sobely_at [[10; 20; 30]; [40; 250; 60]; [70; 80; 90]] i j in
      (-32768 <= lap <= 32767 /\
       -32768 <= gx <= 32767 /\
       -32768 <= gy <= 32767) /\
      pixel sharp i j =
        Z.max 0 (pixel [[10; 20; 30]; [40; 250; 60]; [70; 80; 90]] i j
                 - Z.min 255 (Z.abs lap)) /\
      pixel edges i j =
        Z.max 0 (Z.min 255
          (cv2.cvRound (inject_Z (Z.min 255 (Z.abs gx)) * (1 # 2)
                        + inject_Z (Z.min 255 (Z.abs gy)) * (1 # 2)
                        + 0)%Q)).
Proof.
  apply (laplacian_sobel_outputs_saturate
           [[10; 20; 30]; [40; 250; 60]; [70; 80; 90]]).
  unfold valid_raster. split; [reflexivity |]. split; [reflexivity |].
  split; repeat constructor; unfold is_uint8; lia.
Defined.

(** ** The session callbacks *)

Local Open Scope string_scope.

Lemma dispatch_methods method img_in ksize r :
  dispatch method img_in ksize = Some r ->
  In method ["Mean Filter"; "Median Filter"; "Mode Filter";
             "Laplacian Sharpening"; "Sobel Edge Detection"].
Proof.
  unfold dispatch. cbn [In].
  repeat match goal with
         | |- context [String.eqb method ?m] =>
             destruct (String.eqb_spec method m); [auto 10 |]
         end.
  discriminate.
Qed.

Lemma noise_choice_titles noise_type args title :
  noise_choice noise_type = Some (args, title) ->
  (noise_type = "gaussian" /\ args = gaussian (1 # 100)
   /\ title = "Base: Gaussian Noise") \/
  (noise_type = "s&p" /\ args = s_and_p (5 # 100)
   /\ title = "Base: Salt & Pepper Noise").
Proof.
  unfold noise_choice.
  destruct (String.eqb_spec noise_type "gaussian");
    [intros [= <- <-]; auto |].
  destruct (String.eqb_spec noise_type "s&p");
    [intros [= <- <-]; auto | discriminate].
Qed.

Lemma keys_dict_set {V : Type} (d : dict V) k v k' :
  In k' (keys (dict_set d k v)) -> k' = k \/ In k' (keys d).
Proof.
  induction d as [|[k0 v0] d IH]; cbn [dict_set keys map fst In].
  - intros [<- | []]. now left.
  - destruct (String.eqb_spec k0 k) as [-> | Hne]; cbn [keys map fst In].
    + intros [<- | H]; auto.
    + intros [<- | H]; [auto |]. destruct (IH H); auto.
Qed.

Lemma consistent_record_entry s img title v :
  original_img s = Some img -> consistent s -> "Original" <> title ->
  exists rest, dict_set (results s) title v = ("Original", img) :: rest
               /\ ~ In "Original" (keys rest).
Proof.
  intros Ho Hc Hne. unfold consistent in Hc. rewrite Ho in Hc.
  destruct Hc as [[rest [-> Hrest]] _]. cbn [dict_set].
  destruct (String.eqb_spec "Original" title) as [? | _]; [contradiction |].
  eexists. split; [reflexivity |].
  intros Hin. apply keys_dict_set in Hin. destruct Hin; auto.
Qed.

Lemma reset_image_consistent s : consistent s -> consistent (fst (reset_image s)).
Proof.
  intros Hc. unfold reset_image. destruct (original_img s) as [img|] eqn:Ho.
  - unfold consistent. cbn. split; [| discriminate].
    exists []. split; [reflexivity | intros []].
  - exact Hc.
Qed.

Lemma upload_image_consistent s path file :
  consistent s -> consistent (fst (upload_image s path file)).
Proof.
  intros Hc. unfold upload_image.
  destruct (path =? ""); [exact Hc |].
  destruct file as [img|]; [| exact Hc].
  unfold reset_image, consistent. cbn. split; [| discriminate].
  exists []. split; [reflexivity | intros []].
Qed.

Lemma add_noise_consistent s draw :
  consistent s -> consistent (fst (add_noise s draw)).
Proof.
  intros Hc. unfold add_noise.
  destruct (original_img s) as [img|] eqn:Ho; [| exact Hc].
  destruct (noise_choice (noise_var s)) as [[args title]|] eqn:Hn; [| exact Hc].
  unfold consistent. cbn. split; [| discriminate].
  apply consistent_record_entry; [assumption | assumption |].
  apply noise_choice_titles in Hn.
  destruct Hn as [[_ [_ ->]] | [_ [_ ->]]]; discriminate.
Qed.

Lemma apply_method_consistent s :
  consistent s -> consistent (fst (apply_method s)).
Proof.
  intros Hc. unfold apply_method.
  destruct (processing_base_img s) as [base|] eqn:Hb; [| exact Hc].
  set (smooth := (negb (smooth_before_sharp_var s =? 0)%Z
                  && existsb (String.eqb (method_var s))
                       ["Laplacian Sharpening"; "Sobel Edge Detection"])%bool).
  destruct (if smooth then apply_median_filter base 5 else Some base)
    as [img_in|]; [| exact Hc].
  destruct (dispatch (method_var s) img_in (kernel_size_var s))
    as [[enhanced|]|] eqn:Hd; try exact Hc.
  apply dispatch_methods in Hd.
  destruct (original_img s) as [img|] eqn:Ho.
  - unfold consistent. cbn. split; [| discriminate].
    apply consistent_record_entry; [assumption | assumption |].
    cbn [In] in Hd.
    destruct Hd as [<- | [<- | [<- | [<- | [<- | []]]]]];
      destruct smooth; discriminate.
  - unfold consistent in Hc. rewrite Ho, Hb in Hc.
    destruct Hc as [_ Hc]. discriminate.
Qed.

Lemma step_consistent s a : consistent s -> consistent (fst (step s a)).
Proof.
  intros Hc. destruct a; cbn [step].
  - now apply upload_image_consistent.
  - now apply reset_image_consistent.
  - now apply add_noise_consistent.
  - now apply apply_method_consistent.
  - unfold save_report. destruct (_ <=? 1)%Z; exact Hc.
  - exact Hc.
  - exact Hc.
  - exact Hc.
  - exact Hc.
Qed.

Lemma run_consistent acts : forall s, consistent s -> consistent (run s acts).
Proof.
  induction acts as [|a acts IH]; intros s Hc; [exact Hc |].
  apply IH, step_consistent, Hc.
Qed.

Lemma reachable_consistent s : reachable s -> consistent s.
Proof.
  intros [acts ->]. apply run_consistent. split; reflexivity.
Qed.

Lemma step_original_img s a :
  keeps_image a -> original_img (fst (step s a)) = original_img s.
Proof.
  destruct a; cbn [keeps_image step]; intros Hk; try contradiction;
    try reflexivity.
  - unfold reset_image. break_match; cbn; congruence.
  - unfold add_noise. break_match; cbn; congruence.
  - unfold apply_method. break_match; cbn; congruence.
  - unfold save_report. break_match; cbn; congruence.
Qed.

Lemma run_original_img acts : forall s,
  Forall keeps_image acts -> original_img (run s acts) = original_img s.
Proof.
  induction acts as [|a acts IH]; intros s Hk; [reflexivity |].
  inversion Hk; subst. cbn [run fold_left].
  change (original_img (run (fst (step s a)) acts) = original_img s).
  rewrite IH by assumption. now apply step_original_img.
Qed.

(** C3.  After any sequence of callbacks that keep the loaded image (noise
    injections and filter applications, with any change of the controls
    between them), [reset_image] leaves exactly the entry of the original
    image in the results and the original as the base image.  And in every
    state the application can reach, so after every upload and every reset,
    the entry ["Original"] of the results is the original image. *)
Theorem reset_restores_original :
  (forall (s : App) (img : Raster) (acts : list action),
      original_img s = Some img -> Forall keeps_image acts ->
      let s' := fst (reset_image (run s acts)) in
      results s' = [("Original", img)] /\
      processing_base_img s' = Some img /\
      original_img s' = Some img) /\
  (forall (acts : list action),
      let s' := run init_app acts in
      dict_get (results s') "Original" = original_img s').
Proof.
  split.
  - intros s img acts Ho Hk. cbv zeta.
    pose proof (run_original_img acts s Hk) as Hr. rewrite Ho in Hr.
    unfold reset_image. rewrite Hr. cbn. auto.
  - intros acts. cbv zeta.
    assert (Hc : consistent (run init_app acts))
      by (apply reachable_consistent; now exists acts).
    unfold consistent in Hc.
    destruct (original_img (run init_app acts)) as [img|].
    + destruct Hc as [[rest [-> _]] _]. reflexivity.
    + destruct Hc as [-> _]. reflexivity.
Qed.

Lemma reset_restores_original_witness :
  let s := run init_app [UploadImage "/a/b.png" (Some [[10; 20]; [30; 40]])] in
  let acts := [SelectNoise "s&p"; AddNoise no_noise; ApplyMethod] in
  let s' := fst (reset_image (run s acts)) in
  results s' = [("Original", [[10; 20]; [30; 40]])] /\
  processing_base_img s' = Some [[10; 20]; [30; 40]] /\
  original_img s' = Some [[10; 20]; [30; 40]].
Proof.
  apply (proj1 reset_restores_original).
  - reflexivity.
  - repeat constructor.
Defined.

(** C2.  With an image loaded and one of the two noise types selected,
    [add_noise] hands the original image to [random_noise]: the new base
    image is the scaled draw on the original, it is stored in the results
    under the title of the noise type, and any other session with the same
    original and selection (whatever its base image and results) gets the
    same base image from the same draw. *)
Theorem noise_computed_from_original :
  forall (s : App) (img : Raster) (draw : Raster -> noise_args -> list (list Q))
         (args : noise_args) (title : string),
    original_img s = Some img ->
    noise_choice (noise_var s) = Some (args, title) ->
    let s' := fst (add_noise s draw) in
    let noisy := to_uint8 (draw img args) in
    processing_base_img s' = Some noisy /\
    results s' = dict_set (results s) title noisy /\
    original_img s' = Some img /\
    (forall t : App,
        original_img t = Some img -> noise_var t = noise_var s ->
        processing_base_img (fst (add_noise t draw)) = Some noisy) /\
    ((noise_var s = "gaussian" /\ args = gaussian (1 # 100)
      /\ title = "Base: Gaussian Noise") \/
     (noise_var s = "s&p" /\ args = s_and_p (5 # 100)
      /\ title = "Base: Salt & Pepper Noise")).
Proof.
  intros s img draw args title Ho Hn. cbv zeta.
  unfold add_noise at 1 2 3. rewrite Ho, Hn. cbn.
  repeat split; try assumption.
  - intros t Ht Hv. unfold add_noise. rewrite Ht, Hv, Hn. reflexivity.
  - now apply noise_choice_titles.
Qed.

Lemma noise_computed_from_original_witness :
  let s := run init_app [UploadImage "/a/b.png" (Some [[10; 20]; [30; 40]]);
                         ApplyMethod; SelectNoise "gaussian"] in
  let s' := fst (add_noise s no_noise) in
  let noisy := to_uint8 (no_noise [[10; 20]; [30; 40]] (gaussian (1 # 100))) in
  processing_base_img s' = Some noisy /\
  results s' = dict_set (results s) "Base: Gaussian Noise" noisy /\
  original_img s' = Some [[10; 20]; [30; 40]] /\
  (forall t : App,
      original_img t = Some [[10; 20]; [30; 40]] -> noise_var t = noise_var s ->
      processing_base_img (fst (add_noise t no_noise)) = Some noisy) /\
  ((noise_var s = "gaussian" /\ gaussian (1 # 100) = gaussian (1 # 100)
    /\ "Base: Gaussian Noise" = "Base: Gaussian Noise") \/
   (noise_var s = "s&p" /\ gaussian (1 # 100) = s_and_p (5 # 100)
    /\ "Base: Gaussian Noise" = "Base: Salt & Pepper Noise")).
Proof.
  apply (noise_computed_from_original
           (run init_app [UploadImage "/a/b.png" (Some [[10; 20]; [30; 40]]);
                          ApplyMethod; SelectNoise "gaussian"])
           [[10; 20]; [30; 40]] no_noise (gaussian (1 # 100))
           "Base: Gaussian Noise").
  - reflexivity.
  - reflexivity.
Defined.

(** C8.  Each of the listed failures returns the session it was given
    together with its message, and whenever a callback reports an error or a
    warning, or a library call in it raises, the whole session (so the
    original, the base image and the results) is as before, every later
    sequence of callbacks runs as it would have, and a failed export writes
    no file. *)
Theorem failed_callback_changes_nothing :
  (forall (s : App) (path : string),
      path <> "" ->
      upload_image s path None
      = (s, showerror "Error" "Could not read the image file.")) /\
  (forall (s : App) (draw : Raster -> noise_args -> list (list Q)),
      original_img s = None ->
      reset_image s = (s, showwarning "Warning" "No image loaded.") /\
      add_noise s draw = (s, showwarning "Warning" "Upload an image first.")) /\
  (forall (s : App),
      processing_base_img s = None ->
      apply_method s = (s, showwarning "Warning" "Upload an image first.")) /\
  (forall (s : App) (img : Raster) (draw : Raster -> noise_args -> list (list Q)),
      original_img s = Some img -> noise_choice (noise_var s) = None ->
      add_noise s draw = (s, showwarning "Warning" "Select a noise type.")) /\
  (forall (s : App),
      (List.length (results s) <= 1)%nat ->
      save_report s = (s, showwarning "Warning" "No results to save.", None)) /\
  (forall (s : App) (a : action),
      failed (snd (step s a)) = true ->
      fst (step s a) = s /\
      (forall acts, run (fst (step s a)) acts = run s acts) /\
      (a = SaveReport -> snd (save_report s) = None)).
Proof.
  repeat apply conj.
  - intros s path Hp. unfold upload_image.
    destruct (String.eqb_spec path ""); [contradiction | reflexivity].
  - intros s draw Ho. unfold reset_image, add_noise. now rewrite Ho.
  - intros s Hb. unfold apply_method. now rewrite Hb.
  - intros s img draw Ho Hn. unfold add_noise. now rewrite Ho, Hn.
  - intros s Hl. unfold save_report.
    destruct (Z.leb_spec (Z.of_nat (List.length (results s))) 1); [reflexivity | lia].
  - intros s a Hf.
    assert (Hs : fst (step s a) = s).
    { revert Hf. destruct a; cbn [step]; try discriminate.
      - unfold upload_image, reset_image. cbn. break_match; cbn; congruence.
      - unfold reset_image. break_match; cbn; congruence.
      - unfold add_noise. break_match; cbn; congruence.
      - unfold apply_method. break_match; cbn; congruence.
      - unfold save_report. break_match; cbn; congruence. }
    split; [exact Hs |]. split; [intros acts; now rewrite Hs |].
    intros ->. revert Hf. cbn [step]. unfold save_report.
    break_match; cbn; congruence.
Qed.

Lemma failed_callback_changes_nothing_witness :
  fst (step init_app ApplyMethod) = init_app /\
  (forall acts, run (fst (step init_app ApplyMethod)) acts = run init_app acts) /\
  (ApplyMethod = SaveReport -> snd (save_report init_app) = None).
Proof.
  apply (proj2 (proj2 (proj2 (proj2 (proj2 failed_callback_changes_nothing))))
           init_app ApplyMethod).
  reflexivity.
Defined.

(** C7.  With a base image loaded: when the box is ticked and the method is
    one of the two sharpening and edge methods, the base image goes through
    the median filter of size 5 (whatever the slider says), the method runs
    on the smoothed image, and the result is stored under the method name
    prefixed with ["Smoothed then "]; when the box is not ticked or the
    method is another one, the method runs on the base image itself and the
    result is stored under the bare method name. *)
Theorem presmoothing_only_for_sharpening :
  forall (s : App) (base : Raster),
    processing_base_img s = Some base ->
    let method := method_var s in
    let s' := fst (apply_method s) in
    ((smooth_before_sharp_var s <> 0%Z /\
      (method = "Laplacian Sharpening" \/ method = "Sobel Edge Detection")) ->
     exists smoothed enhanced,
       apply_median_filter base 5 = Some smoothed /\
       (method = "Laplacian Sharpening" ->
        apply_laplacian_filter smoothed = Some enhanced) /\
       (method = "Sobel Edge Detection" ->
        apply_sobel_filter smoothed = Some enhanced) /\
       results s' = dict_set (results s) ("Smoothed then " ++ method) enhanced /\
       prefix "Smoothed then " ("Smoothed then " ++ method) = true) /\
    ((smooth_before_sharp_var s = 0%Z \/
      (method <> "Laplacian Sharpening" /\ method <> "Sobel Edge Detection")) ->
     forall enhanced,
       dispatch method base (kernel_size_var s) = Some (Some enhanced) ->
       results s' = dict_set (results s) method enhanced).
Proof.
  intros s base Hb. cbv zeta. split.
  - intros [Hs Hm]. unfold apply_method. rewrite Hb.
    destruct (Z.eqb_spec (smooth_before_sharp_var s) 0) as [? | _];
      [contradiction |].
    destruct Hm as [Hm | Hm]; rewrite Hm.
    + do 2 eexists. split; [reflexivity |].
      split; [intros _; reflexivity |]. split; [discriminate |].
      split; reflexivity.
    + do 2 eexists. split; [reflexivity |].
      split; [discriminate |]. split; [intros _; reflexivity |].
      split; reflexivity.
  - intros Hcase enhanced Hd. unfold apply_method. rewrite Hb.
    assert (Hsmooth :
      (negb (smooth_before_sharp_var s =? 0)%Z
       && existsb (String.eqb (method_var s))
            ["Laplacian Sharpening"; "Sobel Edge Detection"])%bool = false).
    { destruct Hcase as [-> | [H1 H2]]; [reflexivity |].
      cbn [existsb].
      destruct (String.eqb_spec (method_var s) "Laplacian Sharpening");
        [contradiction |].
      destruct (String.eqb_spec (method_var s) "Sobel Edge Detection");
        [contradiction |].
      apply andb_false_r. }
    rewrite Hsmooth, Hd. reflexivity.
Qed.

Lemma presmoothing_only_for_sharpening_witness :
  let s := run init_app [UploadImage "/a/b.png" (Some [[10; 20]; [30; 40]]);
                         SelectMethod "Sobel Edge Detection"; CheckSmooth 1] in
  let method := method_var s in
  let s' := fst (apply_method s) in
  ((smooth_before_sharp_var s <> 0%Z /\
    (method = "Laplacian Sharpening" \/ method = "Sobel Edge Detection")) ->
   exists smoothed enhanced,
     apply_median_filter [[10; 20]; [30; 40]] 5 = Some smoothed /\
     (method = "Laplacian Sharpening" ->
      apply_laplacian_filter smoothed = Some enhanced) /\
     (method = "Sobel Edge Detection" ->
      apply_sobel_filter smoothed = Some enhanced) /\
     results s' = dict_set (results s) ("Smoothed then " ++ method) enhanced /\
     prefix "Smoothed then " ("Smoothed then " ++ method) = true) /\
  ((smooth_before_sharp_var s = 0%Z \/
    (method <> "Laplacian Sharpening" /\ method <> "Sobel Edge Detection")) ->
   forall enhanced,
     dispatch method [[10; 20]; [30; 40]] (kernel_size_var s)
       = Some (Some enhanced) ->
     results s' = dict_set (results s) method enhanced).
Proof.
  apply (presmoothing_only_for_sharpening
           (run init_app [UploadImage "/a/b.png" (Some [[10; 20]; [30; 40]]);
                          SelectMethod "Sobel Edge Detection"; CheckSmooth 1])
           [[10; 20]; [30; 40]]).
  reflexivity.
Defined.

(** ** The report *)

Lemma entry_pages_not_original s rest :
  ~ In "Original" (keys rest) ->
  flat_map (entry_pages s) rest =
  map (fun item =>
         comparison ("Analysis: " ++ fst item) (original_img s) (snd item)
           (filter_expression s (replace (fst item) "Smoothed then " "")))
      rest.
Proof.
  induction rest as [|[name proc_img] rest IH]; intros Hn; [reflexivity |].
  cbn [keys map fst In] in Hn. cbn [flat_map map fst snd entry_pages].
  destruct (String.eqb_spec name "Original") as [-> | _].
  - exfalso. apply Hn. now left.
  - cbn [app]. f_equal. apply IH. intros Hin. apply Hn. now right.
Qed.

(** C4.  In every state the application can reach: with at most one entry
    in the results [save_report] warns that there is nothing to save and
    writes nothing; with two or more it writes a document of
    [1 + (number of entries - 1)] pages, the cover followed by one
    comparison page for each entry after ["Original"], in order, each
    showing the original image next to the image of the entry. *)
Theorem report_has_cover_and_one_page_per_entry :
  forall (s : App),
    reachable s ->
    ((List.length (results s) <= 1)%nat ->
     save_report s = (s, showwarning "Warning" "No results to save.", None)) /\
    ((2 <= List.length (results s))%nat ->
     exists s' message pdf img rest body,
       save_report s = (s', showinfo "Success" message, Some pdf) /\
       List.length (pages pdf) = (1 + (List.length (results s) - 1))%nat /\
       original_img s = Some img /\
       results s = ("Original", img) :: rest /\
       pages pdf
       = cover ["Spatial Filtering Analysis"; "Image: " ++ current_name s]
         :: body /\
       Forall2 (fun item p =>
                  fst item <> "Original" /\
                  exists box,
                    p = comparison ("Analysis: " ++ fst item) (Some img)
                                   (snd item) box)
               rest body).
Proof.
  intros s Hr. split.
  - intros Hl. unfold save_report.
    destruct (Z.leb_spec (Z.of_nat (List.length (results s))) 1);
      [reflexivity | lia].
  - intros Hl. apply reachable_consistent in Hr. unfold consistent in Hr.
    destruct (original_img s) as [img|] eqn:Ho.
    + destruct Hr as [[rest [Hres Hrest]] _].
      unfold save_report.
      destruct (Z.leb_spec (Z.of_nat (List.length (results s))) 1); [lia |].
      do 6 eexists. split; [reflexivity |]. cbn [pages].
      rewrite Hres. cbn [flat_map entry_pages].
      destruct (String.eqb_spec "Original" "Original") as [_ | ?];
        [| contradiction].
      cbn [app]. rewrite entry_pages_not_original by assumption.
      split; [cbn [List.length]; rewrite length_map; lia |].
      split; [reflexivity |]. split; [reflexivity |].
      split; [reflexivity |]. rewrite Ho.
      clear Hres Hl H. induction rest as [|[name proc_img] rest IH];
        cbn [map]; constructor.
      * cbn [fst snd]. split; [| eexists; reflexivity].
        intros ->. apply Hrest. now left.
      * apply IH. intros Hin. apply Hrest. now right.
    + destruct Hr as [Hres _]. rewrite Hres in Hl. cbn in Hl. lia.
Qed.

Lemma report_has_cover_and_one_page_per_entry_witness :
  let s := run init_app [UploadImage "/a/b.png" (Some [[10; 20]; [30; 40]]);
                         ApplyMethod] in
  ((List.length (results s) <= 1)%nat ->
   save_report s = (s, showwarning "Warning" "No results to save.", None)) /\
  ((2 <= List.length (results s))%nat ->
   exists s' message pdf img rest body,
     save_report s = (s', showinfo "Success" message, Some pdf) /\
     List.length (pages pdf) = (1 + (List.length (results s) - 1))%nat /\
     original_img s = Some img /\
     results s = ("Original", img) :: rest /\
     pages pdf
     = cover ["Spatial Filtering Analysis"; "Image: " ++ current_name s]
       :: body /\
     Forall2 (fun item p =>
                fst item <> "Original" /\
                exists box,
                  p = comparison ("Analysis: " ++ fst item) (Some img)
                                 (snd item) box)
             rest body).
Proof.
  apply (report_has_cover_and_one_page_per_entry
           (run init_app [UploadImage "/a/b.png" (Some [[10; 20]; [30; 40]]);
                          ApplyMethod])).
  exists [UploadImage "/a/b.png" (Some [[10; 20]; [30; 40]]); ApplyMethod].
  reflexivity.
Defined.

(** C10.  On every comparison page of an entry described by the
    size-parameterized text (the entry of the mean filter), the size printed
    is the kernel size of the slider when the report is saved, whichever
    entry it is.  It need not be the size the image was filtered with: a
    mean filter applied at size 3 and exported after the slider moved to 7
    is printed with [1/49] and [ones(7,7)]. *)
Theorem report_prints_kernel_size_at_export :
  (forall (s : App) (pdf : Pdf) (name : string) (proc_img : Raster),
      snd (save_report s) = Some pdf ->
      In (name, proc_img) (results s) ->
      name <> "Original" ->
      replace name "Smoothed then " "" = "Mean Filter" ->
      let k := kernel_size_var s in
      In (comparison ("Analysis: " ++ name) (original_img s) proc_img
            (Some ("Filter Expression:" ++ nl ++ "Kernel: 1/" ++ str (k * k)
                   ++ " * ones(" ++ str k ++ "," ++ str k ++ ")")))
         (pages pdf)) /\
  (let img := [[10; 20; 30]; [40; 250; 60]; [70; 80; 90]]%Z in
   let s := run init_app [UploadImage "/a/b.png" (Some img); MoveSlider 3;
                          ApplyMethod; MoveSlider 7] in
   let mean3 := [[126; 84; 132]; [91; 72; 98]; [146; 104; 152]]%Z in
   apply_mean_filter img 3 = Some mean3 /\
   dict_get (results s) "Mean Filter" = Some mean3 /\
   kernel_size_var s = 7%Z /\
   option_map pages (snd (save_report s))
   = Some [cover ["Spatial Filtering Analysis"; "Image: b"];
           comparison "Analysis: Mean Filter" (Some img) mean3
             (Some ("Filter Expression:" ++ nl
                    ++ "Kernel: 1/49 * ones(7,7)"))]).
Proof.
  split.
  - intros s pdf name proc_img Hs Hin Hname Hclean. cbv zeta.
    unfold save_report in Hs.
    destruct (Z.of_nat (List.length (results s)) <=? 1)%Z; [discriminate |].
    cbn [snd] in Hs. injection Hs as <-. cbn [pages]. right.
    apply in_flat_map. exists (name, proc_img). split; [exact Hin |].
    cbn [entry_pages].
    destruct (String.eqb_spec name "Original") as [? | _]; [contradiction |].
    rewrite Hclean. left. reflexivity.
  - cbv zeta. repeat split; vm_compute; reflexivity.
Qed.

Lemma report_prints_kernel_size_at_export_witness :
  let s := run init_app [UploadImage "/a/b.png" (Some [[10; 20]; [30; 40]]%Z);
                         ApplyMethod; MoveSlider 9] in
  let k := kernel_size_var s in
  In (comparison ("Analysis: " ++ "Mean Filter") (original_img s)
        [[30; 27]; [23; 20]]%Z
        (Some ("Filter Expression:" ++ nl ++ "Kernel: 1/" ++ str (k * k)
               ++ " * ones(" ++ str k ++ "," ++ str k ++ ")")))
     (pages (mkPdf "results/b_Filtering_Report.pdf"
               (cover ["Spatial Filtering Analysis"; "Image: b"]
                :: flat_map (entry_pages s) (results s)))).
Proof.
  apply (proj1 report_prints_kernel_size_at_export
           (run init_app [UploadImage "/a/b.png" (Some [[10; 20]; [30; 40]]%Z);
                          ApplyMethod; MoveSlider 9])
           (mkPdf "results/b_Filtering_Report.pdf"
              (cover ["Spatial Filtering Analysis"; "Image: b"]
               :: flat_map
                    (entry_pages
                       (run init_app
                          [UploadImage "/a/b.png" (Some [[10; 20]; [30; 40]]%Z);
                           ApplyMethod; MoveSlider 9]))
                    (results
                       (run init_app
                          [UploadImage "/a/b.png" (Some [[10; 20]; [30; 40]]%Z);
                           ApplyMethod; MoveSlider 9]))))
           "Mean Filter" [[30; 27]; [23; 20]]%Z).
  - vm_compute. reflexivity.
  - vm_compute. right. left. reflexivity.
  - discriminate.
  - vm_compute. reflexivity.
Defined.

(** ** Kernel sizes and selectors *)

Local Open Scope Z_scope.

(** Rounding stays between integer bounds. *)
Lemma cvRound_between (a b : Z) (q : Q) :
  (inject_Z a <= q)%Q -> (q <= inject_Z b)%Q -> a <= cv2.cvRound q <= b.
Proof.
  intros Ha Hb.
  pose proof (Qfloor_le q) as Hf. pose proof (Qlt_floor q) as Hc.
  assert (Hfa : a <= Qfloor q).
  { rewrite <- (Qfloor_Z a). now apply Qfloor_resp_le. }
  assert (Hfb : Qfloor q <= b).
  { rewrite <- (Qfloor_Z b). now apply Qfloor_resp_le. }
  assert (Hup : (1 # 2 <= q - inject_Z (Qfloor q))%Q -> Qfloor q + 1 <= b).
  { intros Hhalf. assert (Hlt : (inject_Z (Qfloor q) < inject_Z b)%Q) by lra.
    rewrite <- Zlt_Qlt in Hlt. lia. }
  unfold cv2.cvRound.
  destruct (Qcompare (q - inject_Z (Qfloor q)) (1 # 2)) eqn:Hcmp.
  - apply Qeq_alt in Hcmp.
    assert (Hhalf : (1 # 2 <= q - inject_Z (Qfloor q))%Q) by lra.
    destruct (Z.even (Qfloor q)); [lia | specialize (Hup Hhalf); lia].
  - lia.
  - apply Qgt_alt in Hcmp.
    assert (Hhalf : (1 # 2 <= q - inject_Z (Qfloor q))%Q) by lra.
    specialize (Hup Hhalf). lia.
Qed.

Lemma dispatch_unknown method img_in ksize :
  ~ In method methods -> dispatch method img_in ksize = None.
Proof.
  intros Hn. unfold dispatch.
  repeat match goal with
         | |- context [String.eqb method ?m] =>
             destruct (String.eqb_spec method m);
             [exfalso; apply Hn; subst; cbn; auto 10 |]
         end.
  reflexivity.
Qed.

Lemma rem_two_one k : Z.rem k 2 = 1 <-> 0 < k /\ Z.even k = false.
Proof.
  destruct (Z_lt_le_dec 0 k) as [Hpos | Hneg].
  - rewrite Z.rem_mod_nonneg, Zmod_even by lia.
    destruct (Z.even k); split; intros; (lia || tauto || intuition congruence).
  - pose proof (Z.rem_nonpos k 2 ltac:(lia) Hneg). split; intros; lia.
Qed.

(** C5 (as amended).  Nothing in the program checks a kernel size against
    the odd range from 3 to 15.  The slider callback keeps it there: for
    every slider position between 3 and 15 it stores an odd size between 3
    and 15.  The filters fail on a size exactly where the library refuses
    it: the mean filter below one (an even size and a size above 15 are
    accepted), the median filter on an even or non-positive size, the mode
    filter below one, each on a well-shaped image.  [apply_method] with one
    of these three methods on a well-shaped base image fails exactly then,
    with the library's error and the session as it was, and otherwise stores
    the result without a message.  With a noise type that
    is neither of the two, [add_noise] fails: it warns "Select a noise
    type." and leaves the session as it is.  With a method name that is
    none of the five, [apply_method] does not fail: it returns without a
    message and leaves the session as it is. *)
Theorem kernel_size_and_selector_failures :
  (forall (s : App) (val : Q),
      (3 <= val)%Q -> (val <= 15)%Q ->
      let k := kernel_size_var (update_kernel_label s val) in
      Z.odd k = true /\ 3 <= k <= 15) /\
  (forall (img : Raster) (k : Z),
      valid_raster img ->
      (apply_mean_filter img k = None <-> k < 1) /\
      (apply_median_filter img k = None <-> k <= 0 \/ Z.even k = true) /\
      (apply_mode_filter img k = None <-> k < 1)) /\
  (forall (s : App) (base : Raster) (f : Raster -> Z -> option Raster),
      processing_base_img s = Some base -> valid_raster base ->
      In (method_var s, f)
         [("Mean Filter"%string, apply_mean_filter);
          ("Median Filter"%string, apply_median_filter);
          ("Mode Filter"%string, apply_mode_filter)] ->
      match f base (kernel_size_var s) with
      | None =>
          apply_method s = (s, raised) /\
          failed (snd (apply_method s)) = true
      | Some enhanced =>
          snd (apply_method s) = quiet /\
          results (fst (apply_method s))
          = dict_set (results s) (method_var s) enhanced
      end) /\
  (forall (s : App) (img : Raster) (draw : Raster -> noise_args -> list (list Q)),
      original_img s = Some img ->
      noise_var s <> "gaussian"%string -> noise_var s <> "s&p"%string ->
      add_noise s draw = (s, showwarning "Warning" "Select a noise type.") /\
      failed (snd (add_noise s draw)) = true) /\
  (forall (s : App) (base : Raster),
      processing_base_img s = Some base -> ~ In (method_var s) methods ->
      apply_method s = (s, quiet) /\
      failed (snd (apply_method s)) = false).
Proof.
  repeat apply conj.
  - intros s val Hlo Hhi. cbv zeta. cbn [update_kernel_label kernel_size_var].
    unfold py_round.
    pose proof (cvRound_between 3 15 val Hlo Hhi) as Hk.
    set (k0 := cv2.cvRound val) in *. clearbody k0.
    pose proof (Zmod_odd k0) as Hmod.
    destruct (Z.eqb_spec (k0 mod 2) 0) as [Heven | Hodd].
    + split; [| clear Hmod; Z.div_mod_to_equations; lia].
      rewrite Heven in Hmod.
      replace (k0 + 1) with (Z.succ k0) by lia. rewrite Z.odd_succ.
      rewrite <- Z.negb_odd. destruct (Z.odd k0); [discriminate | reflexivity].
    + split; [| lia]. rewrite Z.add_0_r.
      destruct (Z.odd k0); [reflexivity | contradiction].
  - intros img k Hv. split; [| split].
    + unfold apply_mean_filter, cv2.blur.
      destruct (Z.ltb_spec k 1); cbn [orb]; split; intros; try reflexivity;
        try discriminate; try assumption; lia.
    + unfold apply_median_filter, cv2.medianBlur.
      pose proof (rem_two_one k) as Hrem.
      destruct (Z.eqb_spec (Z.rem k 2) 1) as [He | Hne]; cbn [negb].
      * apply Hrem in He. destruct He as [Hpos Heven].
        destruct (k <=? 1); split; try discriminate;
          intros [? | ?]; [lia | congruence | lia | congruence].
      * split; [intros _ | reflexivity].
        destruct (Z_lt_le_dec 0 k); [| now left]. right.
        destruct (Z.even k) eqn:He; [reflexivity |]. exfalso. tauto.
    + split.
      * intros H. destruct (Z_lt_le_dec k 1) as [? | Hge]; [assumption |].
        rewrite (apply_mode_filter_total img k Hv Hge) in H. discriminate.
      * intros Hlt. unfold apply_mode_filter, ndimage.generic_filter.
        destruct (Z.ltb_spec k 1); [reflexivity | lia].
  - intros s base f Hb _ Hin. unfold apply_method. rewrite Hb.
    cbn [In] in Hin.
    destruct Hin as [Hin | [Hin | [Hin | []]]];
      injection Hin as Hm Hf; rewrite <- Hm, <- Hf;
      change (existsb _ _) with false; rewrite andb_false_r;
      [ change (dispatch "Mean Filter" base (kernel_size_var s))
          with (Some (apply_mean_filter base (kernel_size_var s)));
        destruct (apply_mean_filter base (kernel_size_var s))
      | change (dispatch "Median Filter" base (kernel_size_var s))
          with (Some (apply_median_filter base (kernel_size_var s)));
        destruct (apply_median_filter base (kernel_size_var s))
      | change (dispatch "Mode Filter" base (kernel_size_var s))
          with (Some (apply_mode_filter base (kernel_size_var s)));
        destruct (apply_mode_filter base (kernel_size_var s)) ];
      split; reflexivity.
  - intros s img draw Ho Hg Hsp. unfold add_noise, noise_choice. rewrite Ho.
    destruct (String.eqb_spec (noise_var s) "gaussian"); [contradiction |].
    destruct (String.eqb_spec (noise_var s) "s&p"); [contradiction |].
    split; reflexivity.
  - intros s base Hb Hm. unfold apply_method. rewrite Hb.
    assert (Hsmooth :
      existsb (String.eqb (method_var s))
        ["Laplacian Sharpening"; "Sobel Edge Detection"]%string = false).
    { cbn [existsb].
      destruct (String.eqb_spec (method_var s) "Laplacian Sharpening") as [E | _];
        [exfalso; apply Hm; rewrite E; cbn; auto 10 |].
      destruct (String.eqb_spec (method_var s) "Sobel Edge Detection") as [E | _];
        [exfalso; apply Hm; rewrite E; cbn; auto 10 |].
      reflexivity. }
    rewrite Hsmooth, andb_false_r.
    rewrite dispatch_unknown by assumption. split; reflexivity.
Qed.

Lemma kernel_size_and_selector_failures_witness :
  let k := kernel_size_var (update_kernel_label init_app (9 # 2)) in
  Z.odd k = true /\ 3 <= k <= 15.
Proof.
  apply (proj1 kernel_size_and_selector_failures init_app (9 # 2)).
  - vm_compute. discriminate.
  - vm_compute. discriminate.
Defined.

(** C5, as stated: a method name that is none of the five is not reported as
    an error, and the mean filter accepts an even size and a size above
    15. *)
Lemma invalid_parameter_counterexample :
  let img := [[10; 20; 30]; [40; 250; 60]; [70; 80; 90]] in
  let s := run init_app [UploadImage "/a/b.png" (Some img);
                         SelectMethod "Unsharp Mask"] in
  processing_base_img s = Some img /\
  method_var s = "Unsharp Mask"%string /\
  apply_method s = (s, quiet) /\
  failed (snd (apply_method s)) = false /\
  apply_mean_filter img 4
  = Some [[100; 100; 100]; [100; 100; 100]; [100; 100; 100]] /\
  apply_mean_filter img 17 <> None.
Proof. repeat split; vm_compute; (reflexivity || discriminate). Qed.

(** * Further properties of the filters *)

Local Open Scope Z_scope.

(** ** Borders *)

Lemma reflect_inside : stays_inside ndimage.reflect.
Proof.
  intros p len Hlen. unfold ndimage.reflect.
  destruct (Z.leb_spec len 1); [lia |].
  pose proof (Z.mod_pos_bound p (2 * len) ltac:(lia)) as Hq.
  destruct (Z.ltb_spec (p mod (2 * len)) len); lia.
Qed.

Lemma reflect_101_inside : stays_inside cv2.BORDER_REFLECT_101.
Proof.
  intros p len Hlen. unfold cv2.BORDER_REFLECT_101.
  destruct (Z.leb_spec len 1); [lia |].
  pose proof (Z.mod_pos_bound p (2 * len - 2) ltac:(lia)) as Hq.
  destruct (Z.ltb_spec (p mod (2 * len - 2)) len); lia.
Qed.

Lemma replicate_inside : stays_inside cv2.BORDER_REPLICATE.
Proof.
  intros p len Hlen. unfold cv2.BORDER_REPLICATE.
  destruct (Z.ltb_spec p 0); [lia |].
  destruct (Z.leb_spec len p); lia.
Qed.

(** ** Samples and windows of a well-shaped image *)

Lemma pixel_Forall (P : Z -> Prop) img i j :
  valid_raster img -> Forall (Forall P) img ->
  0 <= i < height img -> 0 <= j < width img ->
  P (pixel img i j).
Proof.
  intros [_ [_ [Hrows _]]] HP Hi Hj. unfold pixel, height in *.
  assert (Hin : In (nth (Z.to_nat i) img []) img) by (apply nth_In; lia).
  rewrite Forall_forall in Hrows, HP.
  specialize (Hrows _ Hin). specialize (HP _ Hin).
  rewrite Forall_forall in HP. apply HP, nth_In. lia.
Qed.

Lemma window_Forall (P : Z -> Prop) ext img rows cols i j :
  stays_inside ext -> valid_raster img -> Forall (Forall P) img ->
  Forall P (window ext img rows cols i j).
Proof.
  intros Hext Hv HP. unfold window.
  apply Forall_flat_map, Forall_forall. intros di _.
  apply Forall_map, Forall_forall. intros dj _.
  destruct Hv as [Hh [Hw Hrest]].
  apply pixel_Forall; [repeat split; tauto | assumption | |];
    apply Hext; assumption.
Qed.

Lemma window_nonempty ext img k i j :
  1 <= k -> window ext img k k i j <> [].
Proof.
  intros Hk Hnil. apply (f_equal (@List.length Z)) in Hnil.
  rewrite length_window in Hnil. cbn [List.length] in Hnil. nia.
Qed.

(** ** Sums, sorting and the median *)

Lemma sum_bounds lo hi l :
  Forall (fun v => lo <= v <= hi) l ->
  Z.of_nat (List.length l) * lo <= cv2.sum l <= Z.of_nat (List.length l) * hi.
Proof.
  induction 1 as [|v l Hv Hl IH]; unfold cv2.sum in *;
    cbn [fold_right List.length]; lia.
Qed.

Lemma insert_In v u l : In u (cv2.insert v l) <-> u = v \/ In u l.
Proof.
  induction l as [|w l IH]; cbn [cv2.insert In].
  - intuition.
  - destruct (v <=? w); cbn [In]; rewrite ?IH; intuition.
Qed.

Lemma length_insert_sorted v l :
  List.length (cv2.insert v l) = S (List.length l).
Proof.
  induction l as [|w l IH]; cbn [cv2.insert List.length]; [reflexivity |].
  destruct (v <=? w); cbn [List.length]; [reflexivity | now rewrite IH].
Qed.

Lemma sort_In u l : In u (cv2.sort l) <-> In u l.
Proof.
  induction l as [|v l IH]; cbn [cv2.sort fold_right In]; [tauto |].
  fold (cv2.sort l). rewrite insert_In, IH. intuition.
Qed.

Lemma length_sort l : List.length (cv2.sort l) = List.length l.
Proof.
  induction l as [|v l IH]; cbn [cv2.sort fold_right List.length]; [reflexivity |].
  fold (cv2.sort l). now rewrite length_insert_sorted, IH.
Qed.

(** The median of a non-empty window is one of its samples. *)
Lemma median_In l : l <> [] -> In (cv2.median l) l.
Proof.
  intros Hne. unfold cv2.median. apply sort_In, nth_In.
  rewrite length_sort. destruct l as [|v l]; [congruence |].
  apply Nat.div_lt; cbn [List.length]; lia.
Qed.

(** The rounded mean of samples between two bounds lies between them. *)
Lemma rounded_mean_bounds lo hi n S :
  0 < n -> n * lo <= S <= n * hi -> lo <= (2 * S + n) / (2 * n) <= hi.
Proof.
  intros Hn HS. split.
  - apply Z.div_le_lower_bound; nia.
  - apply Z.lt_succ_r, Z.div_lt_upper_bound; nia.
Qed.

(** ** Images of one shape *)

Lemma shape_of_map2 img f a b :
  shape_of img a -> shape_of img b -> shape_of img (cv2.map2 f a b).
Proof.
  intros [Hla Hra] [Hlb Hrb]. unfold cv2.map2. split.
  - rewrite length_map, length_combine. lia.
  - intros n Hn.
    rewrite nth_map_default with (d' := ([], []))
      by (rewrite length_combine; lia).
    rewrite combine_nth by lia. cbn [fst snd].
    rewrite length_map, length_combine.
    specialize (Hra n Hn). specialize (Hrb n Hn). lia.
Qed.

(** An image of the shape of a well-shaped one, with 8-bit samples, is
    well-shaped and has its height and width. *)
Lemma shape_valid img a :
  valid_raster img -> shape_of img a -> Forall (Forall is_uint8) a ->
  valid_raster a /\ height a = height img /\ width a = width img.
Proof.
  intros [Hh [Hw _]] [Hlen Hrows] Hu. unfold height in *.
  assert (Hwa : width a = width img).
  { destruct a as [|row a']; [cbn [List.length] in Hlen; lia |].
    apply (Hrows O). lia. }
  split; [| split; [lia | exact Hwa]].
  unfold valid_raster, height.
  split; [lia |]. split; [lia |]. split; [| exact Hu].
  apply Forall_forall. intros row Hin.
  destruct (In_nth a row [] Hin) as [n [Hn <-]].
  rewrite Hwa. apply Hrows. lia.
Qed.

(** Two images of one shape with the same samples are the same image. *)
Lemma raster_ext img a b :
  shape_of img a -> shape_of img b ->
  (forall i j, 0 <= i < height img -> 0 <= j < width img ->
               pixel a i j = pixel b i j) ->
  a = b.
Proof.
  intros [Hla Hra] [Hlb Hrb] Hpix. unfold height in Hpix.
  apply nth_ext with (d := []) (d' := []); [lia |].
  intros n Hn.
  assert (Hn' : (n < List.length img)%nat) by lia.
  specialize (Hra n Hn'). specialize (Hrb n Hn').
  apply nth_ext with (d := 0) (d' := 0); [lia |].
  intros m Hm. specialize (Hpix (Z.of_nat n) (Z.of_nat m)).
  unfold pixel in Hpix. rewrite !Nat2Z.id in Hpix. apply Hpix; lia.
Qed.

(** What each filter returns has the shape of its input. *)
Lemma filter_shapes img k out :
  valid_raster img ->
  apply_mean_filter img k = Some out \/
  apply_median_filter img k = Some out \/
  apply_mode_filter img k = Some out \/
  apply_laplacian_filter img = Some out \/
  apply_sobel_filter img = Some out ->
  shape_of img out /\ Forall (Forall is_uint8) out.
Proof.
  intros Hv [H | [H | [H | [H | H]]]].
  - unfold apply_mean_filter, cv2.blur in H.
    destruct ((k <? 1) || (k <? 1))%bool; [discriminate |].
    injection H as <-. split; [apply shape_of_tabulate |].
    apply Forall_tabulate. intros. apply saturate_uint8.
  - unfold apply_median_filter, cv2.medianBlur in H.
    destruct (negb (Z.rem k 2 =? 1)); [discriminate |].
    destruct (Z.leb_spec k 1) as [Hle | Hgt]; injection H as <-.
    + split; [now apply shape_of_valid | now apply valid_nonneg].
    + split; [apply shape_of_tabulate |].
      apply Forall_tabulate. intros i j.
      pose proof (window_uint8 cv2.BORDER_REPLICATE img k k i j
                    (valid_nonneg img Hv)) as Hw.
      rewrite Forall_forall in Hw. apply Hw, median_In.
      apply window_nonempty. lia.
  - destruct (Z_lt_le_dec k 1) as [Hlt | Hge].
    { unfold apply_mode_filter, ndimage.generic_filter in H.
      destruct (Z.ltb_spec k 1); [discriminate | lia]. }
    rewrite (apply_mode_filter_total img k Hv Hge) in H. injection H as <-.
    split; [apply shape_of_tabulate |].
    apply Forall_tabulate. intros i j.
    pose proof (window_uint8 ndimage.reflect img k k i j
                  (valid_nonneg img Hv)) as Hw.
    fold (neighbourhood ndimage.reflect img k i j) in Hw.
    destruct (mode_of_spec (neighbourhood ndimage.reflect img k i j))
      as [v [Hm [Hin _]]].
    + apply window_nonempty. lia.
    + eapply Forall_impl; [| exact Hw]. unfold is_uint8. intros; lia.
    + rewrite Hm. rewrite Forall_forall in Hw. now apply Hw.
  - unfold apply_laplacian_filter in H. cbn in H. injection H as <-.
    split; [| apply Forall_map2; intros; apply saturate_uint8].
    apply shape_of_map2; [now apply shape_of_valid |].
    apply shape_of_map, shape_of_tabulate.
  - unfold apply_sobel_filter in H. cbn in H. injection H as <-.
    split; [| apply Forall_map2; intros; apply saturate_uint8].
    apply shape_of_map2; apply shape_of_map, shape_of_tabulate.
Qed.

(** ** What the filters return *)

Lemma some_eq {A : Type} (a b : A) : Some a = Some b -> a = b.
Proof. now intros [= ->]. Qed.

Lemma pixel_sharpened img i j :
  valid_raster img -> 0 <= i < height img -> 0 <= j < width img ->
  pixel (cv2.subtract img
           (cv2.convertScaleAbs (cv2.filter2D img cv2.CV_16S cv2.Laplacian_K3)))
        i j
  = Z.max 0 (pixel img i j - Z.min 255 (Z.abs (laplacian_at img i j))).
Proof.
  intros Hv Hi Hj. pose proof (valid_nonneg img Hv) as Hu.
  pose proof (window_uint8 cv2.BORDER_DEFAULT img 3 3 i j Hu) as Hw.
  pose proof (length_window cv2.BORDER_DEFAULT img 3 3 i j) as Hlen.
  change (Z.to_nat 3 * Z.to_nat 3)%nat with 9%nat in Hlen.
  pose proof (dot_Laplacian_K3_bound _ Hw Hlen) as Hlap.
  fold (laplacian_at img i j) in Hlap.
  unfold cv2.subtract.
  rewrite (pixel_map2 _ img) by
    (assumption || apply shape_of_valid, Hv
     || apply shape_of_map, shape_of_tabulate).
  rewrite pixel_convertScaleAbs, pixel_filter2D by assumption.
  fold (laplacian_at img i j).
  rewrite saturate_int16_small by lia.
  pose proof (pixel_uint8 img i j Hu) as Hp.
  unfold cv2.saturate_cast, is_uint8 in *. lia.
Qed.

Lemma smoothing_range img k lo hi out :
  valid_raster img -> within lo hi img ->
  apply_mean_filter img k = Some out \/
  apply_median_filter img k = Some out \/
  apply_mode_filter img k = Some out ->
  within lo hi out.
Proof.
  intros Hv Hr [H | [H | H]]; pose proof (valid_nonneg img Hv) as Hu.
  - unfold apply_mean_filter, cv2.blur in H.
    destruct (Z.ltb_spec k 1) as [Hlt | Hge]; [discriminate |].
    change (false || false)%bool with false in H. cbv iota in H.
    apply some_eq in H. subst out.
    apply Forall_tabulate. intros i j.
    pose proof (window_Forall _ cv2.BORDER_DEFAULT img k k i j
                  reflect_101_inside Hv Hr) as Hw.
    pose proof (window_Forall _ cv2.BORDER_DEFAULT img k k i j
                  reflect_101_inside Hv Hu) as Hw8.
    apply sum_bounds in Hw. apply sum_bounds in Hw8.
    rewrite length_window in Hw, Hw8.
    replace (Z.of_nat (Z.to_nat k * Z.to_nat k)) with (k * k) in Hw, Hw8 by nia.
    pose proof (rounded_mean_bounds lo hi (k * k) _ ltac:(nia) Hw) as Hm.
    pose proof (rounded_mean_bounds 0 255 (k * k) _ ltac:(nia) Hw8) as Hm8.
    cbv beta. unfold cv2.saturate_cast. lia.
  - unfold apply_median_filter, cv2.medianBlur in H.
    destruct (negb (Z.rem k 2 =? 1)); [discriminate |].
    destruct (Z.leb_spec k 1) as [Hle | Hgt]; injection H as <-;
      [exact Hr |].
    apply Forall_tabulate. intros i j.
    pose proof (window_Forall _ cv2.BORDER_REPLICATE img k k i j
                  replicate_inside Hv Hr) as Hw.
    rewrite Forall_forall in Hw. apply Hw, median_In, window_nonempty. lia.
  - destruct (Z_lt_le_dec k 1) as [Hlt | Hge].
    { unfold apply_mode_filter, ndimage.generic_filter in H.
      destruct (Z.ltb_spec k 1); [discriminate | lia]. }
    rewrite (apply_mode_filter_total img k Hv Hge) in H. injection H as <-.
    apply Forall_tabulate. intros i j.
    pose proof (window_Forall _ ndimage.reflect img k k i j
                  reflect_inside Hv Hr) as Hw.
    pose proof (window_uint8 ndimage.reflect img k k i j Hu) as Hw8.
    fold (neighbourhood ndimage.reflect img k i j) in Hw, Hw8.
    destruct (mode_of_spec (neighbourhood ndimage.reflect img k i j))
      as [v [Hm [Hin _]]].
    + apply window_nonempty. lia.
    + eapply Forall_impl; [| exact Hw8]. unfold is_uint8. intros; lia.
    + rewrite Hm. rewrite Forall_forall in Hw. now apply Hw.
Qed.

(** X1.  Whatever filter returns an image for a well-shaped input returns a
    well-shaped image of the same height and width, for every kernel
    size. *)
Theorem every_filter_returns_well_shaped_image :
  forall (img : Raster) (k : Z) (out : Raster),
    valid_raster img ->
    apply_mean_filter img k = Some out \/
    apply_median_filter img k = Some out \/
    apply_mode_filter img k = Some out \/
    apply_laplacian_filter img = Some out \/
    apply_sobel_filter img = Some out ->
    valid_raster out /\ height out = height img /\ width out = width img.
Proof.
  intros img k out Hv H.
  destruct (filter_shapes img k out Hv H) as [Hs Hu].
  now apply shape_valid.
Qed.

Lemma every_filter_returns_well_shaped_image_witness :
  valid_raster [[0; 40; 0]; [120; 160; 120]; [0; 40; 0]] /\
  height [[0; 40; 0]; [120; 160; 120]; [0; 40; 0]]
  = height [[10; 20; 30]; [40; 250; 60]; [70; 80; 90]] /\
  width [[0; 40; 0]; [120; 160; 120]; [0; 40; 0]]
  = width [[10; 20; 30]; [40; 250; 60]; [70; 80; 90]].
Proof.
  apply (every_filter_returns_well_shaped_image
           [[10; 20; 30]; [40; 250; 60]; [70; 80; 90]] 3
           [[0; 40; 0]; [120; 160; 120]; [0; 40; 0]]).
  - unfold valid_raster. split; [reflexivity |]. split; [reflexivity |].
    split; repeat constructor; unfold is_uint8; lia.
  - right. right. right. right. vm_compute. reflexivity.
Defined.

(** X2.  The three smoothing filters never leave the intensity range of
    their input: when every sample of a well-shaped image lies between [lo]
    and [hi], so does every sample of the mean, of the median and of the
    mode filter's output, for every kernel size. *)
Theorem smoothing_filters_keep_intensity_range :
  forall (img : Raster) (k lo hi : Z) (out : Raster),
    valid_raster img -> within lo hi img ->
    apply_mean_filter img k = Some out \/
    apply_median_filter img k = Some out \/
    apply_mode_filter img k = Some out ->
    within lo hi out.
Proof. exact smoothing_range. Qed.

Lemma smoothing_filters_keep_intensity_range_witness :
  within 10 250 [[126; 84; 132]; [91; 72; 98]; [146; 104; 152]].
Proof.
  apply (smoothing_filters_keep_intensity_range
           [[10; 20; 30]; [40; 250; 60]; [70; 80; 90]] 3 10 250).
  - unfold valid_raster. split; [reflexivity |]. split; [reflexivity |].
    split; repeat constructor; unfold is_uint8; lia.
  - unfold within. repeat constructor; lia.
  - left. vm_compute. reflexivity.
Defined.

Lemma uniform_same img c out :
  valid_raster img -> within c c img -> shape_of img out ->
  within c c out -> out = img.
Proof.
  intros Hv Hc Hs Hout.
  assert (Hc8 : is_uint8 c).
  { destruct Hv as [Hh [Hw Hrest]].
    pose proof (pixel_Forall _ img 0 0 (conj Hh (conj Hw Hrest)) Hc
                  ltac:(lia) ltac:(lia)) as Hp.
    pose proof (pixel_uint8 img 0 0 (proj2 Hrest)) as Hp8.
    cbv beta in Hp. unfold is_uint8 in *. lia. }
  assert (Hvo : valid_raster out).
  { apply (shape_valid img out Hv Hs).
    eapply Forall_impl; [| exact Hout]. intros row Hrow.
    eapply Forall_impl; [| exact Hrow]. cbv beta. intros v Hvc.
    unfold is_uint8 in *. lia. }
  destruct (shape_valid img out Hv Hs (proj2 (proj2 (proj2 Hvo))))
    as [_ [Hho Hwo]].
  apply (raster_ext img); [assumption | now apply shape_of_valid |].
  intros i j Hi Hj.
  pose proof (pixel_Forall _ img i j Hv Hc Hi Hj) as Hp.
  pose proof (pixel_Forall _ out i j Hvo Hout ltac:(lia) ltac:(lia)) as Hq.
  cbv beta in Hp, Hq. lia.
Qed.

Lemma dot_uniform_zero kernel c x :
  In kernel [cv2.Laplacian_K3; cv2.Sobel_X3; cv2.Sobel_Y3] ->
  Forall (fun v => c <= v <= c) x -> List.length x = 9%nat ->
  cv2.dot kernel x = 0.
Proof.
  intros Hk Hx Hlen. nine_samples x. cbv beta in *.
  cbn [In] in Hk. destruct Hk as [<- | [<- | [<- | []]]];
    unfold cv2.dot, cv2.Laplacian_K3, cv2.Sobel_X3, cv2.Sobel_Y3, cv2.sum;
    cbn [combine map fold_right fst snd]; lia.
Qed.

Lemma window3_uniform_zero kernel c img i j :
  In kernel [cv2.Laplacian_K3; cv2.Sobel_X3; cv2.Sobel_Y3] ->
  valid_raster img -> within c c img ->
  cv2.dot kernel (window cv2.BORDER_DEFAULT img 3 3 i j) = 0.
Proof.
  intros Hk Hv Hc. apply (dot_uniform_zero kernel c); [assumption | |].
  - now apply window_Forall; [apply reflect_101_inside | |].
  - now rewrite length_window.
Qed.

(** X3.  A uniform image is a fixed point of the pipeline: the mean, the
    median and the mode filter of every odd size, and the Laplacian
    sharpening, return the image itself, and the Sobel filter returns the
    all-zero image of the same shape. *)
Theorem uniform_image_is_fixed_point :
  forall (img : Raster) (c k : Z),
    valid_raster img -> within c c img -> 0 < k -> Z.odd k = true ->
    apply_mean_filter img k = Some img /\
    apply_median_filter img k = Some img /\
    apply_mode_filter img k = Some img /\
    apply_laplacian_filter img = Some img /\
    apply_sobel_filter img = Some (tabulate img (fun _ _ => 0)).
Proof.
  intros img c k Hv Hc Hk Hodd.
  assert (Hfix : forall out,
             apply_mean_filter img k = Some out \/
             apply_median_filter img k = Some out \/
             apply_mode_filter img k = Some out -> out = img).
  { intros out H. apply (uniform_same img c); try assumption.
    - apply (filter_shapes img k out Hv). tauto.
    - now apply (smoothing_range img k c c out). }
  split; [| split; [| split; [| split]]].
  - destruct (apply_mean_filter img k) as [out|] eqn:H.
    + f_equal. apply Hfix. now left.
    + unfold apply_mean_filter, cv2.blur in H.
      destruct (Z.ltb_spec k 1); [lia | discriminate].
  - destruct (apply_median_filter img k) as [out|] eqn:H.
    + f_equal. apply Hfix. right. now left.
    + unfold apply_median_filter, cv2.medianBlur in H.
      rewrite (odd_rem k Hk Hodd) in H. cbn [Z.eqb Pos.eqb negb] in H.
      destruct (k <=? 1); discriminate.
  - rewrite (apply_mode_filter_total img k Hv ltac:(lia)). f_equal.
    apply Hfix. right. right.
    apply apply_mode_filter_total; [assumption | lia].
  - change (apply_laplacian_filter img)
      with (Some (cv2.subtract img
                    (cv2.convertScaleAbs
                       (cv2.filter2D img cv2.CV_16S cv2.Laplacian_K3)))).
    f_equal. apply (raster_ext img).
    + apply shape_of_map2; [now apply shape_of_valid |].
      apply shape_of_map, shape_of_tabulate.
    + now apply shape_of_valid.
    + intros i j Hi Hj. rewrite pixel_sharpened by assumption.
      unfold laplacian_at.
      rewrite (window3_uniform_zero _ c) by (cbn; tauto || assumption).
      pose proof (pixel_uint8 img i j (valid_nonneg img Hv)) as Hp.
      unfold is_uint8 in Hp. lia.
  - change (apply_sobel_filter img)
      with (Some (cv2.addWeighted
                    (cv2.convertScaleAbs
                       (cv2.filter2D img cv2.CV_16S cv2.Sobel_X3)) (1 # 2)
                    (cv2.convertScaleAbs
                       (cv2.filter2D img cv2.CV_16S cv2.Sobel_Y3)) (1 # 2) 0)).
    f_equal. apply (raster_ext img).
    + apply shape_of_map2; apply shape_of_map, shape_of_tabulate.
    + apply shape_of_tabulate.
    + intros i j Hi Hj. rewrite pixel_tabulate by assumption.
      unfold cv2.addWeighted.
      rewrite (pixel_map2 _ img) by
        (assumption || apply shape_of_map, shape_of_tabulate).
      rewrite !pixel_convertScaleAbs, !pixel_filter2D by assumption.
      rewrite !(window3_uniform_zero _ c) by (cbn; tauto || assumption).
      reflexivity.
Qed.

Lemma uniform_image_is_fixed_point_witness :
  apply_mean_filter [[128; 128; 128]; [128; 128; 128]] 7
  = Some [[128; 128; 128]; [128; 128; 128]] /\
  apply_median_filter [[128; 128; 128]; [128; 128; 128]] 7
  = Some [[128; 128; 128]; [128; 128; 128]] /\
  apply_mode_filter [[128; 128; 128]; [128; 128; 128]] 7
  = Some [[128; 128; 128]; [128; 128; 128]] /\
  apply_laplacian_filter [[128; 128; 128]; [128; 128; 128]]
  = Some [[128; 128; 128]; [128; 128; 128]] /\
  apply_sobel_filter [[128; 128; 128]; [128; 128; 128]]
  = Some (tabulate [[128; 128; 128]; [128; 128; 128]] (fun _ _ => 0)).
Proof.
  apply (uniform_image_is_fixed_point [[128; 128; 128]; [128; 128; 128]] 128 7).
  - unfold valid_raster. split; [reflexivity |]. split; [reflexivity |].
    split; repeat constructor; unfold is_uint8; lia.
  - unfold within. repeat constructor; lia.
  - lia.
  - reflexivity.
Defined.

(** X4.  Laplacian sharpening never brightens: every sample of its output
    is at most the input sample at the same place, and equal to it where
    the Laplacian vanishes. *)
Theorem laplacian_sharpening_never_brightens :
  forall (img sharp : Raster) (i j : Z),
    valid_raster img -> apply_laplacian_filter img = Some sharp ->
    0 <= i < height img -> 0 <= j < width img ->
    pixel sharp i j <= pixel img i j /\
    (laplacian_at img i j = 0 -> pixel sharp i j = pixel img i j).
Proof.
  intros img sharp i j Hv H Hi Hj.
  change (apply_laplacian_filter img)
    with (Some (cv2.subtract img
                  (cv2.convertScaleAbs
                     (cv2.filter2D img cv2.CV_16S cv2.Laplacian_K3)))) in H.
  apply some_eq in H. subst sharp. rewrite pixel_sharpened by assumption.
  pose proof (pixel_uint8 img i j (valid_nonneg img Hv)) as Hp.
  unfold is_uint8 in Hp. split; [lia |]. intros ->. cbn [Z.abs]. lia.
Qed.

Lemma laplacian_sharpening_never_brightens_witness :
  pixel [[0; 0; 0]; [0; 0; 0]; [0; 0; 0]] 1 1
  <= pixel [[10; 20; 30]; [40; 250; 60]; [70; 80; 90]] 1 1 /\
  (laplacian_at [[10; 20; 30]; [40; 250; 60]; [70; 80; 90]] 1 1 = 0 ->
   pixel [[0; 0; 0]; [0; 0; 0]; [0; 0; 0]] 1 1
   = pixel [[10; 20; 30]; [40; 250; 60]; [70; 80; 90]] 1 1).
Proof.
  apply (laplacian_sharpening_never_brightens
           [[10; 20; 30]; [40; 250; 60]; [70; 80; 90]]
           [[0; 0; 0]; [0; 0; 0]; [0; 0; 0]] 1 1).
  - unfold valid_raster. split; [reflexivity |]. split; [reflexivity |].
    split; repeat constructor; unfold is_uint8; lia.
  - vm_compute. reflexivity.
  - unfold height. simpl. lia.
  - unfold width. simpl. lia.
Defined.

(** X5.  The sizes the filters refuse: the median filter raises exactly for
    a size that is even or not positive, and at size 1 hands back the image
    itself; the mode filter raises exactly for a size below one; the
    Laplacian and the Sobel filter always return. *)
Theorem filters_refuse_only_bad_sizes :
  forall (img : Raster) (k : Z),
    valid_raster img ->
    (apply_median_filter img k = None <-> k <= 0 \/ Z.even k = true) /\
    apply_median_filter img 1 = Some img /\
    (apply_mode_filter img k = None <-> k < 1) /\
    apply_laplacian_filter img <> None /\
    apply_sobel_filter img <> None.
Proof.
  intros img k Hv. split; [| split; [| split; [| split]]].
  - unfold apply_median_filter, cv2.medianBlur.
    pose proof (rem_two_one k) as Hrem.
    destruct (Z.eqb_spec (Z.rem k 2) 1) as [He | Hne]; cbn [negb].
    + apply Hrem in He. destruct He as [Hpos Heven].
      destruct (k <=? 1); split; try discriminate;
        intros [? | ?]; [lia | congruence | lia | congruence].
    + split; [intros _ | reflexivity].
      destruct (Z_lt_le_dec 0 k); [| now left]. right.
      destruct (Z.even k) eqn:He; [reflexivity |]. exfalso. tauto.
  - reflexivity.
  - split.
    + intros H. destruct (Z_lt_le_dec k 1) as [? | Hge]; [assumption |].
      rewrite (apply_mode_filter_total img k Hv Hge) in H. discriminate.
    + intros Hlt. unfold apply_mode_filter, ndimage.generic_filter.
      destruct (Z.ltb_spec k 1); [reflexivity | lia].
  - discriminate.
  - discriminate.
Qed.

Lemma filters_refuse_only_bad_sizes_witness :
  (apply_median_filter [[10; 20]; [30; 40]] 4 = None
   <-> 4 <= 0 \/ Z.even 4 = true) /\
  apply_median_filter [[10; 20]; [30; 40]] 1 = Some [[10; 20]; [30; 40]] /\
  (apply_mode_filter [[10; 20]; [30; 40]] 4 = None <-> 4 < 1) /\
  apply_laplacian_filter [[10; 20]; [30; 40]] <> None /\
  apply_sobel_filter [[10; 20]; [30; 40]] <> None.
Proof.
  apply (filters_refuse_only_bad_sizes [[10; 20]; [30; 40]] 4).
  unfold valid_raster. split; [reflexivity |]. split; [reflexivity |].
  split; repeat constructor; unfold is_uint8; lia.
Defined.

(** * Further properties of the session *)

Local Open Scope string_scope.

(** ** Dictionaries *)

Lemma dict_get_set {V : Type} (d : dict V) k v k' :
  dict_get (dict_set d k v) k'
  = if k =? k' then Some v else dict_get d k'.
Proof.
  induction d as [|[k0 v0] d IH]; cbn [dict_set dict_get].
  - destruct (String.eqb_spec k k'); reflexivity.
  - destruct (String.eqb_spec k0 k) as [-> | Hne]; cbn [dict_get].
    + destruct (String.eqb_spec k k'); reflexivity.
    + rewrite IH. destruct (String.eqb_spec k0 k') as [-> | Hne'].
      * destruct (String.eqb_spec k k'); [congruence | reflexivity].
      * reflexivity.
Qed.

Lemma keys_dict_set_old {V : Type} (d : dict V) k v :
  In k (keys d) -> keys (dict_set d k v) = keys d.
Proof.
  induction d as [|[k0 v0] d IH]; cbn [dict_set keys map fst In]; [tauto |].
  destruct (String.eqb_spec k0 k) as [-> | Hne]; [reflexivity |].
  intros [? | Hin]; [congruence |]. cbn [map fst]. f_equal. now apply IH.
Qed.

Lemma keys_dict_set_new {V : Type} (d : dict V) k v :
  ~ In k (keys d) -> keys (dict_set d k v) = (keys d ++ [k])%list.
Proof.
  induction d as [|[k0 v0] d IH]; cbn [dict_set keys map fst In app];
    [reflexivity |].
  intros Hn. destruct (String.eqb_spec k0 k) as [-> | Hne]; [tauto |].
  cbn [map fst]. f_equal. apply IH. tauto.
Qed.

Lemma NoDup_keys_dict_set {V : Type} (d : dict V) k v :
  NoDup (keys d) -> NoDup (keys (dict_set d k v)).
Proof.
  intros Hd. destruct (in_dec string_dec k (keys d)) as [Hin | Hn].
  - now rewrite keys_dict_set_old.
  - rewrite keys_dict_set_new by assumption.
    apply NoDup_app; [assumption | repeat constructor; intros [] |].
    intros x Hx [<- | []]. contradiction.
Qed.

Lemma Forall_dict_set {V : Type} (P : string * V -> Prop) (d : dict V) k v :
  (forall k', P (k', v)) -> Forall P d -> Forall P (dict_set d k v).
Proof.
  intros Hv. induction 1 as [|[k0 v0] d H0 Hd IH]; cbn [dict_set].
  - repeat constructor. apply Hv.
  - destruct (k0 =? k); constructor; auto.
Qed.

Lemma dict_get_In {V : Type} (d : dict V) k v :
  dict_get d k = Some v -> In (k, v) d.
Proof.
  induction d as [|[k0 v0] d IH]; cbn [dict_get In]; [discriminate |].
  destruct (String.eqb_spec k0 k) as [-> | Hne].
  - intros [= ->]. now left.
  - intros H. right. now apply IH.
Qed.

(** ** What [apply_method] does to the session *)

Lemma apply_method_effect s base :
  processing_base_img s = Some base ->
  let s' := fst (apply_method s) in
  original_img s' = original_img s /\
  processing_base_img s' = Some base /\
  kernel_size_var s' = kernel_size_var s /\
  method_var s' = method_var s /\
  smooth_before_sharp_var s' = smooth_before_sharp_var s /\
  current_name s' = current_name s /\
  match filtered base (method_var s) (kernel_size_var s)
                 (smooth_before_sharp_var s) with
  | Some (title, enhanced) =>
      results s' = dict_set (results s) title enhanced /\
      display s' = Some (title, original_img s, enhanced) /\
      snd (apply_method s) = quiet
  | None =>
      s' = s
  end.
Proof.
  intros Hb. cbv zeta. unfold apply_method, filtered. rewrite Hb.
  destruct (negb (smooth_before_sharp_var s =? 0)%Z
            && existsb (String.eqb (method_var s))
                 ["Laplacian Sharpening"; "Sobel Edge Detection"])%bool.
  - destruct (apply_median_filter base 5) as [img_in|];
      [| cbn; repeat split; assumption].
    destruct (dispatch (method_var s) img_in (kernel_size_var s))
      as [[enhanced|]|]; cbn; repeat split; assumption.
  - destruct (dispatch (method_var s) base (kernel_size_var s))
      as [[enhanced|]|]; cbn; repeat split; assumption.
Qed.

Lemma filtered_titles base method ksize smooth_var title enhanced :
  filtered base method ksize smooth_var = Some (title, enhanced) ->
  In method methods /\
  (title = method \/ title = "Smoothed then " ++ method) /\
  In title labels /\ title <> "Original".
Proof.
  unfold filtered.
  destruct (negb (smooth_var =? 0)%Z
            && existsb (String.eqb method)
                 ["Laplacian Sharpening"; "Sobel Edge Detection"])%bool eqn:Hs.
  - destruct (apply_median_filter base 5) as [img_in|]; [| discriminate].
    destruct (dispatch method img_in ksize) as [[e|]|] eqn:Hd;
      try discriminate.
    intros H. apply some_eq in H. injection H as <- <-.
    split; [exact (dispatch_methods _ _ _ _ Hd) |].
    split; [now right |].
    apply andb_prop in Hs. destruct Hs as [_ Hs]. cbn [existsb] in Hs.
    destruct (String.eqb_spec method "Laplacian Sharpening") as [-> | _];
      [split; [cbn; tauto | discriminate] |].
    destruct (String.eqb_spec method "Sobel Edge Detection") as [-> | _];
      [split; [cbn; tauto | discriminate] | discriminate].
  - destruct (dispatch method base ksize) as [[e|]|] eqn:Hd;
      try discriminate.
    intros H. apply some_eq in H. injection H as <- <-.
    pose proof (dispatch_methods _ _ _ _ Hd) as Hin.
    split; [exact Hin |]. split; [now left |].
    cbn [In] in Hin.
    destruct Hin as [<- | [<- | [<- | [<- | [<- | []]]]]];
      (split; [cbn; tauto | discriminate]).
Qed.

(** ** The labels of the results *)

Lemma labelled_dict_set {V : Type} (d : dict V) k v :
  In k labels ->
  NoDup (keys d) /\ incl (keys d) labels ->
  NoDup (keys (dict_set d k v)) /\ incl (keys (dict_set d k v)) labels.
Proof.
  intros Hk [Hnd Hincl]. split; [now apply NoDup_keys_dict_set |].
  intros k' Hin. apply keys_dict_set in Hin. destruct Hin as [-> | Hin]; auto.
Qed.

Lemma labelled_original (img : Raster) :
  NoDup (keys [("Original", img)]) /\ incl (keys [("Original", img)]) labels.
Proof.
  split; [repeat constructor; intros [] |].
  intros k [<- | []]. cbn. tauto.
Qed.

Lemma step_labelled s a :
  NoDup (keys (results s)) /\ incl (keys (results s)) labels ->
  NoDup (keys (results (fst (step s a)))) /\
  incl (keys (results (fst (step s a)))) labels.
Proof.
  intros Hl. destruct a; cbn [step]; try exact Hl.
  - unfold upload_image. destruct (path =? ""); [exact Hl |].
    destruct file as [img|]; [| exact Hl]. apply labelled_original.
  - unfold reset_image. destruct (original_img s) as [img|]; [| exact Hl].
    apply labelled_original.
  - unfold add_noise. destruct (original_img s) as [img|]; [| exact Hl].
    destruct (noise_choice (noise_var s)) as [[args title]|] eqn:Hn;
      [| exact Hl].
    cbn. apply labelled_dict_set; [| exact Hl].
    apply noise_choice_titles in Hn.
    destruct Hn as [[_ [_ ->]] | [_ [_ ->]]]; cbn; tauto.
  - destruct (processing_base_img s) as [base|] eqn:Hb.
    + pose proof (apply_method_effect s base Hb) as He. cbv zeta in He.
      destruct He as [_ [_ [_ [_ [_ [_ He]]]]]].
      destruct (filtered base (method_var s) (kernel_size_var s)
                  (smooth_before_sharp_var s)) as [[title enhanced]|] eqn:Hf.
      * destruct He as [-> _]. apply labelled_dict_set; [| exact Hl].
        now apply filtered_titles in Hf.
      * rewrite He. exact Hl.
    + unfold apply_method. rewrite Hb. exact Hl.
  - unfold save_report. destruct (_ <=? 1)%Z; exact Hl.
Qed.

Lemma run_labelled acts : forall s,
  NoDup (keys (results s)) /\ incl (keys (results s)) labels ->
  NoDup (keys (results (run s acts))) /\
  incl (keys (results (run s acts))) labels.
Proof.
  induction acts as [|a acts IH]; intros s Hl; [exact Hl |].
  apply IH, step_labelled, Hl.
Qed.

(** X6.  In every state the application can reach, the labels of the results
    are distinct and among the ten the callbacks write, so there are at most
    ten entries, and every report has at most ten pages. *)
Theorem results_hold_at_most_ten_entries :
  forall (acts : list action),
    let s := run init_app acts in
    NoDup (keys (results s)) /\
    incl (keys (results s)) labels /\
    (List.length (results s) <= 10)%nat /\
    (forall pdf, snd (save_report s) = Some pdf ->
                 (List.length (pages pdf) <= 10)%nat).
Proof.
  intros acts. cbv zeta.
  assert (Hl : NoDup (keys (results (run init_app acts))) /\
               incl (keys (results (run init_app acts))) labels).
  { apply run_labelled. split; [constructor | intros k []]. }
  destruct Hl as [Hnd Hincl].
  assert (Hlen : (List.length (results (run init_app acts)) <= 10)%nat).
  { pose proof (NoDup_incl_length Hnd Hincl) as H.
    unfold keys in H. rewrite length_map in H. exact H. }
  split; [exact Hnd |]. split; [exact Hincl |]. split; [exact Hlen |].
  intros pdf Hp. unfold save_report in Hp.
  destruct (_ <=? 1)%Z; [discriminate |]. cbn [snd] in Hp.
  apply some_eq in Hp. subst pdf. cbn [pages List.length].
  assert (Hc : consistent (run init_app acts))
    by (apply reachable_consistent; now exists acts).
  unfold consistent in Hc.
  destruct (original_img (run init_app acts)) as [img|].
  - destruct Hc as [[rest [Hres Hrest]] _]. rewrite Hres in *.
    cbn [flat_map entry_pages]. cbn [String.eqb Ascii.eqb Bool.eqb app].
    rewrite entry_pages_not_original by assumption.
    rewrite length_map. cbn [List.length] in Hlen. lia.
  - destruct Hc as [-> _]. cbn. lia.
Qed.

(** ** Filters are applied to the base image *)

Lemma select_apply s m base :
  processing_base_img s = Some base ->
  let s' := run s [SelectMethod m; ApplyMethod] in
  original_img s' = original_img s /\
  processing_base_img s' = Some base /\
  kernel_size_var s' = kernel_size_var s /\
  smooth_before_sharp_var s' = smooth_before_sharp_var s /\
  results s' =
  match filtered base m (kernel_size_var s) (smooth_before_sharp_var s) with
  | Some (title, enhanced) => dict_set (results s) title enhanced
  | None => results s
  end.
Proof.
  intros Hb. cbv zeta. cbn [run fold_left step fst].
  set (s1 := mkApp _ _ _ _ _ _ m _ _ _).
  pose proof (apply_method_effect s1 base Hb) as He. cbv zeta in He.
  destruct He as [Ho [Hb' [Hk [_ [Hs [_ He]]]]]].
  change (method_var s1) with m in He.
  change (kernel_size_var s1) with (kernel_size_var s) in He.
  change (smooth_before_sharp_var s1) with (smooth_before_sharp_var s) in He.
  repeat split; try assumption.
  destruct (filtered base m (kernel_size_var s) (smooth_before_sharp_var s))
    as [[title enhanced]|].
  - now destruct He as [-> _].
  - rewrite He. reflexivity.
Qed.

Lemma select_apply_none s m :
  processing_base_img s = None ->
  results (run s [SelectMethod m; ApplyMethod]) = results s /\
  processing_base_img (run s [SelectMethod m; ApplyMethod]) = None.
Proof.
  intros Hb. cbn [run fold_left step fst]. unfold apply_method.
  cbn [processing_base_img]. rewrite Hb. cbn. auto.
Qed.

Lemma filtered_title_inj base m1 m2 ksize smooth_var title e1 e2 :
  filtered base m1 ksize smooth_var = Some (title, e1) ->
  filtered base m2 ksize smooth_var = Some (title, e2) ->
  e1 = e2.
Proof.
  intros H1 H2.
  destruct (filtered_titles _ _ _ _ _ _ H1) as [Hm1 [Ht1 _]].
  destruct (filtered_titles _ _ _ _ _ _ H2) as [Hm2 [Ht2 _]].
  assert (Hm : m1 = m2).
  { cbn [In methods] in Hm1, Hm2.
    destruct Hm1 as [<- | [<- | [<- | [<- | [<- | []]]]]];
      destruct Hm2 as [<- | [<- | [<- | [<- | [<- | []]]]]];
      try reflexivity; exfalso;
      destruct Ht1 as [-> | ->]; destruct Ht2 as [Ht2 | Ht2];
      discriminate Ht2. }
  subst m2. congruence.
Qed.

(** X7.  Filters do not chain: each application works on the base image,
    not on what an earlier application produced.  Applying two methods in
    either order leaves the same image under every label, and the base image
    untouched. *)
Theorem filters_apply_to_base_in_any_order :
  forall (s : App) (m1 m2 label : string),
    let a := run s [SelectMethod m1; ApplyMethod; SelectMethod m2; ApplyMethod] in
    let b := run s [SelectMethod m2; ApplyMethod; SelectMethod m1; ApplyMethod] in
    dict_get (results a) label = dict_get (results b) label /\
    processing_base_img a = processing_base_img s /\
    processing_base_img b = processing_base_img s.
Proof.
  intros s m1 m2 label. cbv zeta.
  change (run s [SelectMethod m1; ApplyMethod; SelectMethod m2; ApplyMethod])
    with (run (run s [SelectMethod m1; ApplyMethod])
              [SelectMethod m2; ApplyMethod]).
  change (run s [SelectMethod m2; ApplyMethod; SelectMethod m1; ApplyMethod])
    with (run (run s [SelectMethod m2; ApplyMethod])
              [SelectMethod m1; ApplyMethod]).
  destruct (processing_base_img s) as [base|] eqn:Hb.
  - destruct (select_apply s m1 base Hb) as [_ [Hb1 [Hk1 [Hs1 Hr1]]]].
    destruct (select_apply s m2 base Hb) as [_ [Hb2 [Hk2 [Hs2 Hr2]]]].
    destruct (select_apply _ m2 base Hb1) as [_ [Hb12 [_ [_ Hr12]]]].
    destruct (select_apply _ m1 base Hb2) as [_ [Hb21 [_ [_ Hr21]]]].
    rewrite Hk1, Hs1 in Hr12. rewrite Hk2, Hs2 in Hr21.
    split; [| split; assumption].
    rewrite Hr12, Hr21, Hr1, Hr2.
    destruct (filtered base m1 (kernel_size_var s) (smooth_before_sharp_var s))
      as [[t1 e1]|] eqn:H1;
      destruct (filtered base m2 (kernel_size_var s) (smooth_before_sharp_var s))
        as [[t2 e2]|] eqn:H2;
      rewrite ?dict_get_set; try reflexivity.
    destruct (String.eqb_spec t2 label) as [-> | _];
      destruct (String.eqb_spec t1 label) as [-> | _]; try reflexivity.
    f_equal. symmetry. exact (filtered_title_inj _ _ _ _ _ _ _ _ H1 H2).
  - destruct (select_apply_none s m1 Hb) as [Hr1 Hb1].
    destruct (select_apply_none s m2 Hb) as [Hr2 Hb2].
    destruct (select_apply_none _ m2 Hb1) as [Hr12 Hb12].
    destruct (select_apply_none _ m1 Hb2) as [Hr21 Hb21].
    rewrite Hr12, Hr21, Hr1, Hr2, Hb12, Hb21. auto.
Qed.

(** ** Sessions driven through the window *)

Local Open Scope Z_scope.

Lemma fits_refl img : valid_raster img -> fits img img.
Proof. intros Hv. repeat split; try reflexivity; apply Hv. Qed.

Lemma fits_trans img a b : fits img a -> fits a b -> fits img b.
Proof. intros [_ [Hh Hw]] [Hv [Hh' Hw']]. repeat split; try apply Hv; lia. Qed.

Lemma filter_fits img k out :
  valid_raster img ->
  apply_mean_filter img k = Some out \/
  apply_median_filter img k = Some out \/
  apply_mode_filter img k = Some out \/
  apply_laplacian_filter img = Some out \/
  apply_sobel_filter img = Some out ->
  fits img out.
Proof.
  intros Hv H. destruct (filter_shapes img k out Hv H) as [Hs Hu].
  now apply shape_valid.
Qed.

Lemma dispatch_filter method img_in ksize enhanced :
  dispatch method img_in ksize = Some (Some enhanced) ->
  apply_mean_filter img_in ksize = Some enhanced \/
  apply_median_filter img_in ksize = Some enhanced \/
  apply_mode_filter img_in ksize = Some enhanced \/
  apply_laplacian_filter img_in = Some enhanced \/
  apply_sobel_filter img_in = Some enhanced.
Proof.
  unfold dispatch.
  repeat match goal with
         | |- context [String.eqb method ?m] =>
             destruct (String.eqb method m);
             [intros H; apply some_eq in H; tauto |]
         end.
  discriminate.
Qed.

Lemma filtered_fits base method ksize smooth_var title enhanced :
  valid_raster base ->
  filtered base method ksize smooth_var = Some (title, enhanced) ->
  fits base enhanced.
Proof.
  intros Hv. unfold filtered.
  destruct (negb (smooth_var =? 0)
            && existsb (String.eqb method)
                 ["Laplacian Sharpening"; "Sobel Edge Detection"]%string)%bool.
  - destruct (apply_median_filter base 5) as [img_in|] eqn:Hm;
      [| discriminate].
    assert (Hfit : fits base img_in) by (apply (filter_fits base 5); tauto).
    destruct (dispatch method img_in ksize) as [[e|]|] eqn:Hd;
      try discriminate.
    intros H. apply some_eq in H. injection H as _ <-.
    apply (fits_trans base img_in); [assumption |].
    apply (filter_fits img_in ksize); [apply Hfit |].
    now apply (dispatch_filter method).
  - destruct (dispatch method base ksize) as [[e|]|] eqn:Hd;
      try discriminate.
    intros H. apply some_eq in H. injection H as _ <-.
    apply (filter_fits base ksize); [assumption |].
    now apply (dispatch_filter method).
Qed.


Lemma to_uint8_fits img draw args :
  valid_raster img -> keeps_shape draw -> fits img (to_uint8 (draw img args)).
Proof.
  intros Hv Hk. specialize (Hk img args).
  apply shape_valid; [assumption | |].
  - destruct Hv as [_ [_ [Hrows _]]]. unfold to_uint8. split.
    + rewrite length_map.
      apply (f_equal (@List.length nat)) in Hk. now rewrite !length_map in Hk.
    + intros n Hn.
      assert (Hn' : (n < List.length (draw img args))%nat).
      { apply (f_equal (@List.length nat)) in Hk.
        rewrite !length_map in Hk. lia. }
      rewrite nth_map_default with (d' := []) by assumption.
      rewrite length_map.
      apply (f_equal (fun l => nth n l O)) in Hk.
      rewrite (nth_map_default (@List.length Q) _ n O []) in Hk by assumption.
      rewrite (nth_map_default (@List.length Z) _ n O []) in Hk by assumption.
      rewrite Hk. rewrite Forall_forall in Hrows. apply Hrows, nth_In, Hn.
  - unfold to_uint8. apply Forall_map, Forall_forall. intros row _.
    apply Forall_map, Forall_forall. intros x _.
    unfold is_uint8, np.astype_uint8.
    pose proof (Z.mod_pos_bound
                  (Z.quot (Qnum (x * inject_Z 255)) (Zpos (Qden (x * inject_Z 255))))
                  256 ltac:(lia)). lia.
Qed.

(** The rounded value is within a half of the position. *)
Lemma cvRound_near (q : Q) :
  (inject_Z (cv2.cvRound q) - (1 # 2) <= q)%Q /\
  (q <= inject_Z (cv2.cvRound q) + (1 # 2))%Q.
Proof.
  pose proof (Qfloor_le q) as Hf. pose proof (Qlt_floor q) as Hc.
  rewrite inject_Z_plus in Hc. change (inject_Z 1) with 1%Q in Hc.
  unfold cv2.cvRound.
  destruct (Qcompare (q - inject_Z (Qfloor q)) (1 # 2)) eqn:Hcmp.
  - apply Qeq_alt in Hcmp.
    destruct (Z.even (Qfloor q)); rewrite ?inject_Z_plus;
      change (inject_Z 1) with 1%Q; split; lra.
  - apply Qlt_alt in Hcmp. split; lra.
  - apply Qgt_alt in Hcmp. rewrite inject_Z_plus.
    change (inject_Z 1) with 1%Q. split; lra.
Qed.

Lemma forced_odd (k0 : Z) :
  Z.odd (k0 + (if k0 mod 2 =? 0 then 1 else 0)) = true.
Proof.
  pose proof (Zmod_odd k0) as Hmod.
  destruct (Z.eqb_spec (k0 mod 2) 0) as [Heven | Hodd].
  - rewrite Heven in Hmod.
    replace (k0 + 1) with (Z.succ k0) by lia. rewrite Z.odd_succ.
    rewrite <- Z.negb_odd. destruct (Z.odd k0); [discriminate | reflexivity].
  - rewrite Z.add_0_r. destruct (Z.odd k0); [reflexivity | contradiction].
Qed.

Lemma forced_range (k0 : Z) :
  3 <= k0 <= 15 -> 3 <= k0 + (if k0 mod 2 =? 0 then 1 else 0) <= 15.
Proof.
  intros Hk. destruct (Z.eqb_spec (k0 mod 2) 0) as [Heven | Hodd]; [| lia].
  Z.div_mod_to_equations. lia.
Qed.

Lemma sound_fresh s img k :
  valid_raster img -> Z.odd k = true -> 3 <= k <= 15 ->
  original_img s = Some img -> processing_base_img s = Some img ->
  results s = [("Original"%string, img)] -> kernel_size_var s = k ->
  sound s.
Proof.
  intros Hv Hodd Hk Ho Hb Hr Hks. unfold sound.
  rewrite Hks, Ho, Hb, Hr.
  split; [assumption |]. split; [assumption |]. split; [assumption |]. split.
  - intros base [= <-]. now apply fits_refl.
  - constructor; [| constructor]. cbn [snd]. now apply fits_refl.
Qed.

Lemma step_sound s a :
  offered a -> sound s -> sound (fst (step s a)).
Proof.
  intros Ha Hs. pose proof Hs as [Hodd [Hk Himg]].
  destruct a; cbn [step offered] in *; try exact Hs.
  - unfold upload_image. destruct (String.eqb path ""); [exact Hs |].
    destruct file as [img|]; [| exact Hs].
    unfold reset_image. cbn.
    apply (sound_fresh _ img (kernel_size_var s)); try assumption; reflexivity.
  - unfold reset_image. destruct (original_img s) as [img|] eqn:Ho;
      [| exact Hs].
    destruct Himg as [Hv _].
    cbn. apply (sound_fresh _ img (kernel_size_var s));
      try assumption; reflexivity.
  - unfold add_noise. destruct (original_img s) as [img|] eqn:Ho;
      [| exact Hs].
    destruct (noise_choice (noise_var s)) as [[args title]|]; [| exact Hs].
    destruct Himg as [Hv [Hbase Hres]].
    pose proof (to_uint8_fits img draw args Hv Ha) as Hfit.
    unfold sound. cbn.
    split; [assumption |]. split; [assumption |]. split; [assumption |].
    split.
    + intros base [= <-]. exact Hfit.
    + apply Forall_dict_set; [intros; exact Hfit | exact Hres].
  - destruct (processing_base_img s) as [base|] eqn:Hb.
    + pose proof (apply_method_effect s base Hb) as He. cbv zeta in He.
      destruct He as [Ho' [Hb' [Hk' [_ [_ [_ He]]]]]].
      destruct (filtered base (method_var s) (kernel_size_var s)
                  (smooth_before_sharp_var s)) as [[title enhanced]|] eqn:Hf.
      * destruct He as [Hr' _]. unfold sound.
        rewrite Hk', Ho', Hb', Hr'.
        split; [assumption |]. split; [assumption |].
        destruct (original_img s) as [img|]; [| exact I].
        destruct Himg as [Hv [Hbase Hres]].
        split; [assumption |]. split;
          [intros b Hb2; apply some_eq in Hb2; subst b; now apply Hbase |].
        apply Forall_dict_set; [| exact Hres]. intros k'. cbn [snd].
        apply (fits_trans img base); [now apply Hbase |].
        apply (filtered_fits base _ _ _ _ _ (proj1 (Hbase base eq_refl)) Hf).
      * rewrite He. exact Hs.
    + unfold apply_method. rewrite Hb. exact Hs.
  - unfold save_report. destruct (_ <=? 1); exact Hs.
  - unfold sound, update_kernel_label, py_round. cbn.
    destruct Ha as [Hlo Hhi].
    pose proof (cvRound_between 3 15 val Hlo Hhi) as Hr.
    split; [apply forced_odd |]. split; [now apply forced_range |].
    exact Himg.
Qed.

Lemma run_sound acts : forall s,
  Forall offered acts -> sound s -> sound (run s acts).
Proof.
  induction acts as [|a acts IH]; intros s Ha Hs; [exact Hs |].
  inversion Ha; subst. apply IH; [assumption |]. now apply step_sound.
Qed.

Lemma init_sound : sound init_app.
Proof. unfold sound. cbn. repeat split; (reflexivity || lia || discriminate). Qed.

(** X8.  In a session driven through the window (well-shaped uploads, the
    slider between 3 and 15, noise that keeps the shape) every image held
    is well-shaped and has the height and width of the original: the base
    image and every entry of the results. *)
Theorem held_images_have_the_size_of_the_original :
  forall (acts : list action) (img : Raster),
    Forall offered acts ->
    let s := run init_app acts in
    original_img s = Some img ->
    valid_raster img /\
    (forall base, processing_base_img s = Some base -> fits img base) /\
    (forall name entry, In (name, entry) (results s) -> fits img entry).
Proof.
  intros acts img Ha. cbv zeta. intros Ho.
  pose proof (run_sound acts init_app Ha init_sound) as [_ [_ Hs]].
  rewrite Ho in Hs. destruct Hs as [Hv [Hb Hr]].
  split; [exact Hv |]. split; [exact Hb |].
  intros name entry Hin. rewrite Forall_forall in Hr.
  exact (Hr _ Hin).
Qed.

Lemma no_noise_keeps_shape : keeps_shape no_noise.
Proof.
  intros img args. unfold no_noise. rewrite map_map.
  apply map_ext. intros row. apply length_map.
Qed.

Lemma held_images_have_the_size_of_the_original_witness :
  let s := run init_app [UploadImage "/a/b.png" (Some [[10; 20]; [30; 40]]);
                         SelectNoise "s&p"; AddNoise no_noise; ApplyMethod] in
  valid_raster [[10; 20]; [30; 40]] /\
  (forall base, processing_base_img s = Some base ->
                fits [[10; 20]; [30; 40]] base) /\
  (forall name entry, In (name, entry) (results s) ->
                      fits [[10; 20]; [30; 40]] entry).
Proof.
  apply (held_images_have_the_size_of_the_original
           [UploadImage "/a/b.png" (Some [[10; 20]; [30; 40]]);
            SelectNoise "s&p"; AddNoise no_noise; ApplyMethod]
           [[10; 20]; [30; 40]]).
  - repeat constructor; try (unfold is_uint8; lia).
    exact no_noise_keeps_shape.
  - vm_compute. reflexivity.
Defined.



(** ** The kernel size *)

Lemma cvRound_Z (k : Z) : cv2.cvRound (inject_Z k) = k.
Proof.
  unfold cv2.cvRound. rewrite Qfloor_Z.
  destruct (Qcompare (inject_Z k - inject_Z k) (1 # 2)) eqn:Hcmp.
  - apply Qeq_alt in Hcmp. lra.
  - reflexivity.
  - apply Qgt_alt in Hcmp. lra.
Qed.

Lemma step_kernel_odd s a :
  Z.odd (kernel_size_var s) = true ->
  Z.odd (kernel_size_var (fst (step s a))) = true.
Proof.
  intros Hodd. destruct a; cbn [step fst]; try exact Hodd.
  - unfold upload_image, reset_image. cbn [original_img].
    break_match; cbn; assumption.
  - unfold reset_image. break_match; cbn; assumption.
  - unfold add_noise. break_match; cbn; assumption.
  - unfold apply_method. break_match; cbn; assumption.
  - unfold save_report. break_match; cbn; assumption.
  - apply forced_odd.
Qed.

(** X10.  The slider callback stores the odd integer next to its position:
    the stored size is odd, lies no more than a half below and no more than
    one and a half above the position, and is left alone when the callback
    is called again with the stored size.  So the kernel size is odd in
    every state the application can reach. *)
Theorem slider_stores_an_odd_size_nearby :
  (forall (s : App) (val : Q),
      let k := kernel_size_var (update_kernel_label s val) in
      Z.odd k = true /\
      (val - (1 # 2) <= inject_Z k)%Q /\
      (inject_Z k <= val + (3 # 2))%Q /\
      kernel_size_var (update_kernel_label (update_kernel_label s val)
                         (inject_Z k)) = k) /\
  (forall (acts : list action),
      Z.odd (kernel_size_var (run init_app acts)) = true).
Proof.
  split.
  - intros s val. cbv zeta. cbn [update_kernel_label kernel_size_var].
    unfold py_round.
    pose proof (cvRound_near val) as [Hlo Hhi].
    set (k0 := cv2.cvRound val) in *.
    pose proof (forced_odd k0) as Hodd.
    split; [exact Hodd |].
    assert (Hk : k0 <= k0 + (if k0 mod 2 =? 0 then 1 else 0) <= k0 + 1)
      by (destruct (k0 mod 2 =? 0); lia).
    destruct Hk as [Hk1 Hk2].
    set (k := k0 + (if k0 mod 2 =? 0 then 1 else 0)) in *.
    rewrite Zle_Qle in Hk1, Hk2. rewrite inject_Z_plus in Hk2.
    change (inject_Z 1) with 1%Q in Hk2.
    split; [lra |]. split; [lra |].
    rewrite cvRound_Z.
    pose proof (Zmod_odd k) as Hmod. rewrite Hodd in Hmod.
    rewrite Hmod. change (1 =? 0) with false. cbv iota. apply Z.add_0_r.
  - intros acts.
    assert (H : forall s, Z.odd (kernel_size_var s) = true ->
                          Z.odd (kernel_size_var (run s acts)) = true).
    { induction acts as [|a acts IH]; intros s Hs; [exact Hs |].
      apply IH, step_kernel_odd, Hs. }
    apply H. reflexivity.
Qed.

(** ** The name and the path of the report *)

Local Open Scope string_scope.

Lemma chars_append a b : chars (a ++ b) = (chars a ++ chars b)%list.
Proof.
  induction a as [|c a IH]; [reflexivity |].
  cbn. unfold chars in IH. now rewrite IH.
Qed.

Lemma after_last_slash_free s : forall acc,
  ~ In "/"%char (chars acc) -> ~ In "/"%char (chars (after_last_slash s acc)).
Proof.
  induction s as [|c s IH]; intros acc Hacc; cbn [after_last_slash];
    [exact Hacc |].
  destruct (Ascii.eqb_spec c "/"%char) as [-> | Hne].
  - apply IH. intros [].
  - apply IH. rewrite chars_append. intros Hin.
    apply in_app_or in Hin. destruct Hin as [Hin | [Heq | []]]; [tauto |].
    congruence.
Qed.

Lemma substring_chars c s : forall n m,
  In c (chars (substring n m s)) -> In c (chars s).
Proof.
  induction s as [|c' s IH]; intros [|n] [|m]; cbn; try tauto.
  - intros [-> | Hin]; [now left | right; now apply (IH O m)].
  - intros Hin. right. now apply (IH n O).
  - intros Hin. right. now apply (IH n (S m)).
Qed.

Lemma Path_stem_free path : ~ In "/"%char (chars (Path_stem path)).
Proof.
  assert (Hname : ~ In "/"%char (chars (Path_name path)))
    by (apply after_last_slash_free; intros []).
  unfold Path_stem.
  destruct (rfind_dot (Path_name path) 0 None) as [i|]; [| exact Hname].
  destruct ((0 <? i)%nat && (i <? String.length (Path_name path) - 1)%nat)%bool;
    [| exact Hname].
  intros Hin. apply Hname. now apply substring_chars in Hin.
Qed.

Lemma report_path name :
  ~ In "/"%char (chars name) ->
  os_path_join "results" (name ++ "_Filtering_Report.pdf")
  = "results/" ++ name ++ "_Filtering_Report.pdf".
Proof.
  intros Hfree. unfold os_path_join.
  assert (Hp : prefix "/" (name ++ "_Filtering_Report.pdf") = false).
  { destruct name as [|c name]; [reflexivity |]. cbn [append prefix].
    destruct (ascii_dec "/" c) as [<- | _]; [| reflexivity].
    exfalso. apply Hfree. now left. }
  rewrite Hp. reflexivity.
Qed.

Lemma step_current_name_free s a :
  ~ In "/"%char (chars (current_name s)) ->
  ~ In "/"%char (chars (current_name (fst (step s a)))).
Proof.
  intros Hfree. destruct a; cbn [step fst]; try exact Hfree.
  - unfold upload_image. destruct (path =? ""); [exact Hfree |].
    destruct file as [img|]; [| exact Hfree].
    unfold reset_image. cbn. apply Path_stem_free.
  - unfold reset_image. break_match; cbn; assumption.
  - unfold add_noise. break_match; cbn; assumption.
  - unfold apply_method. break_match; cbn; assumption.
  - unfold save_report. break_match; cbn; assumption.
Qed.

Lemma run_current_name_free acts : forall s,
  ~ In "/"%char (chars (current_name s)) ->
  ~ In "/"%char (chars (current_name (run s acts))).
Proof.
  induction acts as [|a acts IH]; intros s Hs; [exact Hs |].
  apply IH, step_current_name_free, Hs.
Qed.

(** X11.  Every report the application writes goes into the directory
    [results], under the stem of the uploaded file's name followed by
    [_Filtering_Report.pdf]; the stem holds no slash, so the file never
    lands elsewhere.  Saving again right away writes the same document to
    the same path. *)
Theorem report_is_written_into_results :
  forall (acts : list action) (pdf : Pdf),
    let s := run init_app acts in
    snd (save_report s) = Some pdf ->
    pdf_path pdf = "results/" ++ current_name s ++ "_Filtering_Report.pdf" /\
    ~ In "/"%char (chars (current_name s)) /\
    snd (save_report (fst (fst (save_report s)))) = Some pdf.
Proof.
  intros acts pdf. cbv zeta. intros Hp.
  assert (Hfree : ~ In "/"%char (chars (current_name (run init_app acts))))
    by (apply run_current_name_free; intros []).
  set (s := run init_app acts) in *.
  unfold save_report in *.
  destruct (Z.of_nat (List.length (results s)) <=? 1)%Z eqn:Hle;
    [discriminate |].
  cbn [snd fst] in *. apply some_eq in Hp. subst pdf. cbn [pdf_path].
  split; [now apply report_path |]. split; [exact Hfree |].
  cbn [results set_status]. rewrite Hle. reflexivity.
Qed.

Lemma report_is_written_into_results_witness :
  let s := run init_app [UploadImage "/home/u/lena.png" (Some [[10; 20]; [30; 40]]);
                         ApplyMethod] in
  let pdf :=
    mkPdf "results/lena_Filtering_Report.pdf"
      [cover ["Spatial Filtering Analysis"; "Image: lena"];
       comparison "Analysis: Mean Filter" (Some [[10; 20]; [30; 40]]%Z)
         [[30; 27]; [23; 20]]%Z
         (Some ("Filter Expression:" ++ nl ++ "Kernel: 1/9 * ones(3,3)"))] in
  pdf_path pdf = "results/" ++ current_name s ++ "_Filtering_Report.pdf" /\
  ~ In "/"%char (chars (current_name s)) /\
  snd (save_report (fst (fst (save_report s)))) = Some pdf.
Proof.
  apply (report_is_written_into_results
           [UploadImage "/home/u/lena.png" (Some [[10; 20]; [30; 40]]%Z);
            ApplyMethod]).
  vm_compute. reflexivity.
Defined.

(** ** The pages of the report *)

(** X12.  In every report the application writes, each entry of the results
    other than the original has its comparison page, and the page carries a
    text box with the filter's description exactly when the entry is a
    filter result: the two noise entries are printed without one. *)
Theorem report_describes_filters_only :
  forall (acts : list action) (pdf : Pdf) (name : string) (entry : Raster),
    let s := run init_app acts in
    snd (save_report s) = Some pdf ->
    In (name, entry) (results s) ->
    name <> "Original" ->
    exists box,
      In (comparison ("Analysis: " ++ name) (original_img s) entry box)
         (pages pdf) /\
      (box = None <->
       name = "Base: Gaussian Noise" \/ name = "Base: Salt & Pepper Noise").
Proof.
  intros acts pdf name entry. cbv zeta. intros Hp Hin Hname.
  assert (Hl : NoDup (keys (results (run init_app acts))) /\
               incl (keys (results (run init_app acts))) labels).
  { apply run_labelled. split; [constructor | intros k []]. }
  destruct Hl as [_ Hincl].
  set (s := run init_app acts) in *.
  assert (Hlab : In name labels).
  { apply Hincl. unfold keys. apply in_map_iff. now exists (name, entry). }
  unfold save_report in Hp.
  destruct (Z.of_nat (List.length (results s)) <=? 1)%Z; [discriminate |].
  cbn [snd] in Hp. apply some_eq in Hp. subst pdf. cbn [pages].
  exists (filter_expression s (replace name "Smoothed then " "")). split.
  - right. apply in_flat_map. exists (name, entry). split; [exact Hin |].
    cbn [entry_pages].
    destruct (String.eqb_spec name "Original"); [contradiction |].
    now left.
  - cbn [In labels] in Hlab.
    destruct Hlab as [<- | [<- | [<- | [<- | [<- | [<- | [<- | [<- | [<- | [<- | []]]]]]]]]]];
      try contradiction; unfold filter_expression; cbn;
      split; try discriminate; try tauto;
      intros [H | H]; discriminate H.
Qed.

Lemma report_describes_filters_only_witness :
  let s := run init_app [UploadImage "/a/b.png" (Some [[10; 20]; [30; 40]]%Z);
                         SelectNoise "gaussian"; AddNoise no_noise;
                         ApplyMethod] in
  exists box,
    In (comparison ("Analysis: " ++ "Base: Gaussian Noise") (original_img s)
          [[10; 20]; [30; 40]]%Z box)
       (pages (mkPdf "results/b_Filtering_Report.pdf"
                 (cover ["Spatial Filtering Analysis"; "Image: b"]
                  :: flat_map (entry_pages s) (results s)))) /\
    (box = None <->
     "Base: Gaussian Noise" = "Base: Gaussian Noise" \/
     "Base: Gaussian Noise" = "Base: Salt & Pepper Noise").
Proof.
  apply (report_describes_filters_only
           [UploadImage "/a/b.png" (Some [[10; 20]; [30; 40]]%Z);
            SelectNoise "gaussian"; AddNoise no_noise; ApplyMethod]
           (mkPdf "results/b_Filtering_Report.pdf"
              (cover ["Spatial Filtering Analysis"; "Image: b"]
               :: flat_map
                    (entry_pages
                       (run init_app
                          [UploadImage "/a/b.png" (Some [[10; 20]; [30; 40]]%Z);
                           SelectNoise "gaussian"; AddNoise no_noise;
                           ApplyMethod]))
                    (results
                       (run init_app
                          [UploadImage "/a/b.png" (Some [[10; 20]; [30; 40]]%Z);
                           SelectNoise "gaussian"; AddNoise no_noise;
                           ApplyMethod]))))
           "Base: Gaussian Noise" [[10; 20]; [30; 40]]%Z).
  - vm_compute. reflexivity.
  - vm_compute. right. left. reflexivity.
  - discriminate.
Defined.

(** ** The slider and the methods that use it *)

Lemma dispatch_without_slider method img_in k k' :
  existsb (String.eqb method) ["Mean Filter"; "Median Filter"; "Mode Filter"]
  = false ->
  dispatch method img_in k = dispatch method img_in k'.
Proof.
  cbn [existsb]. unfold dispatch.
  destruct (method =? "Mean Filter"); [discriminate |].
  destruct (method =? "Median Filter"); [discriminate |].
  destruct (method =? "Mode Filter"); [discriminate |].
  reflexivity.
Qed.

(** X13.  [toggle_controls] hides the slider only when it is of no use:
    whenever it leaves the kernel frame hidden, moving the slider (to any
    position whatever) before applying the filter changes nothing of what
    is stored, shown and reported. *)
Theorem hidden_slider_has_no_effect :
  forall (s : App) (val : Q),
    toggle_controls s = false ->
    let moved := step (fst (step s (MoveSlider val))) ApplyMethod in
    let plain := step s ApplyMethod in
    results (fst moved) = results (fst plain) /\
    display (fst moved) = display (fst plain) /\
    status (fst moved) = status (fst plain) /\
    snd moved = snd plain.
Proof.
  intros s val Ht. cbv zeta. cbn [step fst]. unfold toggle_controls in Ht.
  unfold apply_method. cbn [update_kernel_label processing_base_img method_var
                            kernel_size_var smooth_before_sharp_var].
  destruct (processing_base_img s) as [base|]; [| cbn; auto].
  destruct (negb (smooth_before_sharp_var s =? 0)%Z
            && existsb (String.eqb (method_var s))
                 ["Laplacian Sharpening"; "Sobel Edge Detection"])%bool.
  - destruct (apply_median_filter base 5) as [img_in|]; [| cbn; auto].
    rewrite (dispatch_without_slider _ img_in _ (kernel_size_var s) Ht).
    destruct (dispatch (method_var s) img_in (kernel_size_var s))
      as [[e|]|]; cbn; auto.
  - rewrite (dispatch_without_slider _ base _ (kernel_size_var s) Ht).
    destruct (dispatch (method_var s) base (kernel_size_var s))
      as [[e|]|]; cbn; auto.
Qed.

Lemma hidden_slider_has_no_effect_witness :
  let s := run init_app [UploadImage "/a/b.png" (Some [[10; 20]; [30; 40]]%Z);
                         SelectMethod "Sobel Edge Detection"] in
  let moved := step (fst (step s (MoveSlider (11 # 1)))) ApplyMethod in
  let plain := step s ApplyMethod in
  results (fst moved) = results (fst plain) /\
  display (fst moved) = display (fst plain) /\
  status (fst moved) = status (fst plain) /\
  snd moved = snd plain.
Proof.
  apply (hidden_slider_has_no_effect
           (run init_app [UploadImage "/a/b.png" (Some [[10; 20]; [30; 40]]%Z);
                          SelectMethod "Sobel Edge Detection"])
           (11 # 1)).
  vm_compute. reflexivity.
Defined.

(** ** The display *)

Lemma display_fresh s img title :
  original_img s = Some img -> results s = [("Original", img)] ->
  display s = Some (title, Some img, img) -> display_current s.
Proof.
  intros Ho Hr Hd. unfold display_current. rewrite Hd, Ho, Hr.
  split; [reflexivity |]. exists "Original". reflexivity.
Qed.

Lemma step_display_current s a :
  display_current s -> display_current (fst (step s a)).
Proof.
  intros Hd. destruct a; cbn [step fst]; try exact Hd.
  - unfold upload_image. destruct (path =? ""); [exact Hd |].
    destruct file as [img|]; [| exact Hd].
    unfold reset_image. cbn [original_img fst].
    apply (display_fresh _ img "Original Image"); reflexivity.
  - unfold reset_image. destruct (original_img s) as [img|] eqn:Ho;
      [| exact Hd].
    cbn [fst]. apply (display_fresh _ img "Original Image"); reflexivity.
  - unfold add_noise. destruct (original_img s) as [img|] eqn:Ho;
      [| exact Hd].
    destruct (noise_choice (noise_var s)) as [[args title]|]; [| exact Hd].
    unfold display_current. cbn. split; [reflexivity |].
    exists title. now rewrite dict_get_set, String.eqb_refl.
  - destruct (processing_base_img s) as [base|] eqn:Hb.
    + pose proof (apply_method_effect s base Hb) as He. cbv zeta in He.
      destruct He as [Ho' [_ [_ [_ [_ [_ He]]]]]].
      destruct (filtered base (method_var s) (kernel_size_var s)
                  (smooth_before_sharp_var s)) as [[title enhanced]|].
      * destruct He as [Hr' [Hd' _]]. unfold display_current.
        rewrite Hd', Ho', Hr'. split; [reflexivity |].
        exists title. now rewrite dict_get_set, String.eqb_refl.
      * now rewrite He.
    + unfold apply_method. rewrite Hb. exact Hd.
  - unfold save_report. destruct (_ <=? 1)%Z; exact Hd.
Qed.

Lemma run_display_current acts : forall s,
  display_current s -> display_current (run s acts).
Proof.
  induction acts as [|a acts IH]; intros s Hs; [exact Hs |].
  apply IH, step_display_current, Hs.
Qed.

(** X14.  Whatever the display shows belongs to the session as it is: in
    every state the application can reach, the left panel is the original
    image now loaded and the right panel is an image stored in the
    results. *)
Theorem display_shows_the_session :
  forall (acts : list action) (title : string) (left_image : option Raster)
         (right_image : Raster),
    let s := run init_app acts in
    display s = Some (title, left_image, right_image) ->
    left_image = original_img s /\
    original_img s <> None /\
    exists key, dict_get (results s) key = Some right_image.
Proof.
  intros acts title left_image right_image. cbv zeta. intros Hd.
  pose proof (run_display_current acts init_app I) as Hc.
  assert (Hcons : consistent (run init_app acts))
    by (apply reachable_consistent; now exists acts).
  unfold display_current in Hc. rewrite Hd in Hc.
  destruct Hc as [Hl [key Hkey]].
  split; [exact Hl |]. split; [| now exists key].
  unfold consistent in Hcons.
  destruct (original_img (run init_app acts)); [discriminate |].
  destruct Hcons as [Hr _]. rewrite Hr in Hkey. discriminate.
Qed.

Lemma display_shows_the_session_witness :
  let s := run init_app [UploadImage "/a/b.png" (Some [[10; 20]; [30; 40]]%Z);
                         ApplyMethod; SelectMethod "Mode Filter"] in
  Some [[10; 20]; [30; 40]]%Z = original_img s /\
  original_img s <> None /\
  exists key, dict_get (results s) key = Some [[30; 27]; [23; 20]]%Z.
Proof.
  apply (display_shows_the_session
           [UploadImage "/a/b.png" (Some [[10; 20]; [30; 40]]%Z);
            ApplyMethod; SelectMethod "Mode Filter"]
           "Mean Filter").
  vm_compute. reflexivity.
Defined.

(** ** Noise, then a filter *)

(** X15.  A filter applied after noise was added works on the noisy image:
    with no smoothing ticked, the entry stored under the method name is the
    filter's output on the noisy base image, the noisy image stays in the
    results under its own title, and the display still shows the original on
    the left. *)
Theorem filter_after_noise_works_on_the_noisy_image :
  forall (s : App) (img : Raster)
         (draw : Raster -> noise_args -> list (list Q))
         (args : noise_args) (title : string) (enhanced : Raster),
    original_img s = Some img ->
    noise_choice (noise_var s) = Some (args, title) ->
    smooth_before_sharp_var s = 0%Z ->
    let noisy := to_uint8 (draw img args) in
    dispatch (method_var s) noisy (kernel_size_var s) = Some (Some enhanced) ->
    let s' := run s [AddNoise draw; ApplyMethod] in
    processing_base_img s' = Some noisy /\
    dict_get (results s') (method_var s) = Some enhanced /\
    dict_get (results s') title = Some noisy /\
    display s' = Some (method_var s, Some img, enhanced).
Proof.
  intros s img draw args title enhanced Ho Hn Hs. cbv zeta. intros Hd.
  cbn [run fold_left step]. unfold add_noise at 1 2 3 4. rewrite Ho, Hn.
  cbn [fst]. unfold apply_method.
  cbn [processing_base_img method_var kernel_size_var smooth_before_sharp_var
       show_result set_status original_img results display status
       noise_var current_name].
  rewrite Hs. cbn [Z.eqb negb andb]. rewrite Hd. cbn.
  split; [reflexivity |]. rewrite !dict_get_set, String.eqb_refl.
  split; [reflexivity |]. split; [| reflexivity].
  destruct (String.eqb_spec (method_var s) title) as [Heq | _];
    [| now rewrite String.eqb_refl].
  exfalso. apply dispatch_methods in Hd. apply noise_choice_titles in Hn.
  rewrite Heq in Hd. cbn [In] in Hd.
  destruct Hn as [[_ [_ ->]] | [_ [_ ->]]];
    destruct Hd as [H | [H | [H | [H | [H | []]]]]]; discriminate H.
Qed.

Lemma filter_after_noise_works_on_the_noisy_image_witness :
  let s := run init_app [UploadImage "/a/b.png" (Some [[10; 20]; [30; 40]]%Z);
                         SelectNoise "s&p"] in
  let noisy := to_uint8 (no_noise [[10; 20]; [30; 40]]%Z (s_and_p (5 # 100))) in
  let s' := run s [AddNoise no_noise; ApplyMethod] in
  processing_base_img s' = Some noisy /\
  dict_get (results s') (method_var s) = Some [[30; 27]; [23; 20]]%Z /\
  dict_get (results s') "Base: Salt & Pepper Noise" = Some noisy /\
  display s'
  = Some (method_var s, Some [[10; 20]; [30; 40]]%Z, [[30; 27]; [23; 20]]%Z).
Proof.
  apply (filter_after_noise_works_on_the_noisy_image
           (run init_app [UploadImage "/a/b.png" (Some [[10; 20]; [30; 40]]%Z);
                          SelectNoise "s&p"])
           [[10; 20]; [30; 40]]%Z no_noise (s_and_p (5 # 100))
           "Base: Salt & Pepper Noise" [[30; 27]; [23; 20]]%Z).
  - reflexivity.
  - reflexivity.
  - reflexivity.
  - vm_compute. reflexivity.
Defined.

(** ** The controls *)

(** X16.  The controls keep their setting through every button: the noise
    type, the method, the kernel size and the smoothing box are changed by
    their own control only, so neither an upload nor a reset nor any other
    callback puts them back. *)
Theorem controls_change_only_by_their_own_action :
  forall (s : App) (a : action),
    match a with
    | SelectNoise _ => True
    | _ => noise_var (fst (step s a)) = noise_var s
    end /\
    match a with
    | SelectMethod _ => True
    | _ => method_var (fst (step s a)) = method_var s
    end /\
    match a with
    | MoveSlider _ => True
    | _ => kernel_size_var (fst (step s a)) = kernel_size_var s
    end /\
    match a with
    | CheckSmooth _ => True
    | _ => smooth_before_sharp_var (fst (step s a)) = smooth_before_sharp_var s
    end.
Proof.
  intros s a. destruct a; cbn [step fst]; repeat split;
    try reflexivity;
    unfold upload_image, reset_image, add_noise, apply_method, save_report;
    cbn [original_img]; break_match; reflexivity.
Qed.

(** ** Pressing a button twice *)

Lemma dict_set_idem {V : Type} (d : dict V) k v :
  dict_set (dict_set d k v) k v = dict_set d k v.
Proof.
  induction d as [|[k0 v0] d IH]; cbn [dict_set].
  - now rewrite String.eqb_refl.
  - destruct (String.eqb_spec k0 k) as [-> | Hne]; cbn [dict_set].
    + now rewrite String.eqb_refl.
    + destruct (String.eqb_spec k0 k); [contradiction |]. now rewrite IH.
Qed.

(** X17.  Applying the selected filter a second time changes nothing: the
    entry is overwritten with the same image, not added again, and the
    session after two presses of the button is the session after one.  The
    same holds for adding noise twice from the same draw. *)
Theorem pressing_twice_is_pressing_once :
  forall (s : App) (draw : Raster -> noise_args -> list (list Q)),
    apply_method (fst (apply_method s)) = apply_method s /\
    add_noise (fst (add_noise s draw)) draw = add_noise s draw /\
    reset_image (fst (reset_image s)) = reset_image s.
Proof.
  intros s draw. split; [| split].
  - unfold apply_method at 2 3.
    destruct (processing_base_img s) as [base|] eqn:Hb;
      [| cbn [fst]; unfold apply_method; now rewrite Hb].
    destruct (negb (smooth_before_sharp_var s =? 0)%Z
              && existsb (String.eqb (method_var s))
                   ["Laplacian Sharpening"; "Sobel Edge Detection"])%bool
      eqn:Hsm.
    + destruct (apply_median_filter base 5) as [img_in|] eqn:Hm;
        [| cbn [fst]; unfold apply_method; now rewrite Hb, Hsm, Hm].
      destruct (dispatch (method_var s) img_in (kernel_size_var s))
        as [[e|]|] eqn:Hd;
        cbn [fst]; unfold apply_method;
        cbn [processing_base_img method_var kernel_size_var
             smooth_before_sharp_var show_result set_status original_img
             results display status noise_var current_name];
        rewrite ?Hb, Hsm, Hm, Hd; [| reflexivity | reflexivity].
      now rewrite dict_set_idem.
    + destruct (dispatch (method_var s) base (kernel_size_var s))
        as [[e|]|] eqn:Hd;
        cbn [fst]; unfold apply_method;
        cbn [processing_base_img method_var kernel_size_var
             smooth_before_sharp_var show_result set_status original_img
             results display status noise_var current_name];
        rewrite ?Hb, Hsm, Hd; [| reflexivity | reflexivity].
      now rewrite dict_set_idem.
  - unfold add_noise at 2 3.
    destruct (original_img s) as [img|] eqn:Ho;
      [| cbn [fst]; unfold add_noise; now rewrite Ho].
    destruct (noise_choice (noise_var s)) as [[args title]|] eqn:Hn;
      [| cbn [fst]; unfold add_noise; now rewrite Ho, Hn].
    cbn [fst]. unfold add_noise.
    cbn [processing_base_img method_var kernel_size_var
         smooth_before_sharp_var show_result set_status original_img
         results display status noise_var current_name].
    rewrite Hn. now rewrite dict_set_idem.
  - unfold reset_image at 2 3.
    destruct (original_img s) as [img|] eqn:Ho;
      [| cbn [fst]; unfold reset_image; now rewrite Ho].
    reflexivity.
Qed.

(** ** A kernel of size one *)

Local Open Scope Z_scope.

Lemma reflect_id p len : 0 <= p < len -> ndimage.reflect p len = p.
Proof.
  intros Hp. unfold ndimage.reflect.
  destruct (Z.leb_spec len 1); [lia |].
  rewrite Z.mod_small by lia. destruct (Z.ltb_spec p len); lia.
Qed.

Lemma reflect_101_id p len :
  0 <= p < len -> cv2.BORDER_REFLECT_101 p len = p.
Proof.
  intros Hp. unfold cv2.BORDER_REFLECT_101.
  destruct (Z.leb_spec len 1); [lia |].
  destruct (Z.eq_dec p (len - 1)) as [-> | Hne].
  - destruct (Z.eq_dec len 2) as [-> | Hl]; [reflexivity |].
    rewrite Z.mod_small by lia. destruct (Z.ltb_spec (len - 1) len); lia.
  - rewrite Z.mod_small by lia. destruct (Z.ltb_spec p len); lia.
Qed.

Lemma window_one ext img i j :
  window ext img 1 1 i j
  = [pixel img (ext i (height img)) (ext j (width img))].
Proof.
  change (window ext img 1 1 i j)
    with [pixel img (ext (i + 0 - 0) (height img))
                    (ext (j + 0 - 0) (width img))].
  now rewrite !Z.add_0_r, !Z.sub_0_r.
Qed.

(** X18.  A kernel of size one changes nothing: on a well-shaped image the
    mean, the median and the mode filter of size 1 each return the image
    itself. *)
Theorem size_one_filters_change_nothing :
  forall (img : Raster),
    valid_raster img ->
    apply_mean_filter img 1 = Some img /\
    apply_median_filter img 1 = Some img /\
    apply_mode_filter img 1 = Some img.
Proof.
  intros img Hv. pose proof (valid_nonneg img Hv) as Hu.
  split; [| split].
  - change (apply_mean_filter img 1)
      with (Some (tabulate img (fun i j =>
              cv2.saturate_cast cv2.CV_8U
                ((2 * cv2.sum (window cv2.BORDER_DEFAULT img 1 1 i j) + 1 * 1)
                 / (2 * (1 * 1)))))).
    f_equal. apply (raster_ext img);
      [apply shape_of_tabulate | now apply shape_of_valid |].
    intros i j Hi Hj. rewrite pixel_tabulate by assumption.
    rewrite window_one. unfold cv2.BORDER_DEFAULT.
    rewrite !reflect_101_id by assumption.
    pose proof (pixel_uint8 img i j Hu) as Hp. unfold is_uint8 in Hp.
    unfold cv2.sum, cv2.saturate_cast. cbn [fold_right].
    set (p := pixel img i j) in *.
    assert (Hq : (2 * (p + 0) + 1 * 1) / (2 * (1 * 1)) = p)
      by (Z.div_mod_to_equations; lia).
    rewrite Hq. lia.
  - reflexivity.
  - rewrite (apply_mode_filter_total img 1 Hv ltac:(lia)). f_equal.
    apply (raster_ext img);
      [apply shape_of_tabulate | now apply shape_of_valid |].
    intros i j Hi Hj. rewrite pixel_tabulate by assumption.
    unfold neighbourhood. rewrite window_one.
    rewrite !reflect_id by assumption.
    pose proof (pixel_uint8 img i j Hu) as Hp. unfold is_uint8 in Hp.
    destruct (mode_of_spec [pixel img i j]) as [v [Hm [Hin _]]];
      [discriminate | repeat constructor; lia |].
    rewrite Hm. destruct Hin as [<- | []]. reflexivity.
Qed.

Lemma size_one_filters_change_nothing_witness :
  apply_mean_filter [[10; 20]; [30; 40]] 1 = Some [[10; 20]; [30; 40]] /\
  apply_median_filter [[10; 20]; [30; 40]] 1 = Some [[10; 20]; [30; 40]] /\
  apply_mode_filter [[10; 20]; [30; 40]] 1 = Some [[10; 20]; [30; 40]].
Proof.
  apply (size_one_filters_change_nothing [[10; 20]; [30; 40]]).
  unfold valid_raster. split; [reflexivity |]. split; [reflexivity |].
  split; repeat constructor; unfold is_uint8; lia.
Defined.

(** ** The base image *)

Local Open Scope string_scope.

Lemma step_base_stored s a :
  (forall base, processing_base_img s = Some base ->
     exists key,
       In key ["Original"; "Base: Gaussian Noise"; "Base: Salt & Pepper Noise"]
       /\ dict_get (results s) key = Some base) ->
  forall base, processing_base_img (fst (step s a)) = Some base ->
    exists key,
      In key ["Original"; "Base: Gaussian Noise"; "Base: Salt & Pepper Noise"]
      /\ dict_get (results (fst (step s a))) key = Some base.
Proof.
  intros Hs. destruct a; cbn [step fst]; try exact Hs.
  - unfold upload_image. destruct (path =? ""); [exact Hs |].
    destruct file as [img|]; [| exact Hs].
    unfold reset_image. cbn. intros base [= <-].
    exists "Original". split; [tauto | reflexivity].
  - unfold reset_image. destruct (original_img s) as [img|]; [| exact Hs].
    cbn. intros base [= <-]. exists "Original". split; [tauto | reflexivity].
  - unfold add_noise. destruct (original_img s) as [img|]; [| exact Hs].
    destruct (noise_choice (noise_var s)) as [[args title]|] eqn:Hn;
      [| exact Hs].
    cbn [fst processing_base_img results show_result set_status].
    intros base Hb. apply some_eq in Hb. subst base. exists title. split.
    + apply noise_choice_titles in Hn.
      destruct Hn as [[_ [_ ->]] | [_ [_ ->]]]; cbn; tauto.
    + now rewrite dict_get_set, String.eqb_refl.
  - destruct (processing_base_img s) as [base|] eqn:Hb.
    + pose proof (apply_method_effect s base Hb) as He. cbv zeta in He.
      destruct He as [_ [Hb' [_ [_ [_ [_ He]]]]]].
      intros b Hb2. rewrite Hb' in Hb2. apply some_eq in Hb2. subst b.
      destruct (Hs base eq_refl) as [key [Hkey Hget]].
      destruct (filtered base (method_var s) (kernel_size_var s)
                  (smooth_before_sharp_var s)) as [[title enhanced]|] eqn:Hf.
      * destruct He as [-> _]. exists key. split; [exact Hkey |].
        rewrite dict_get_set.
        destruct (String.eqb_spec title key) as [-> | _]; [| exact Hget].
        exfalso. apply filtered_titles in Hf.
        destruct Hf as [Hm [Ht _]]. cbn [In methods] in Hm. cbn [In] in Hkey.
        destruct Hkey as [Hk | [Hk | [Hk | []]]]; rewrite <- Hk in Ht;
          destruct Hm as [Hm | [Hm | [Hm | [Hm | [Hm | []]]]]];
          rewrite <- Hm in Ht; destruct Ht as [Ht | Ht]; discriminate Ht.
      * rewrite He. now exists key.
    + unfold apply_method. rewrite Hb. cbn [fst]. intros b Hb2. congruence.
  - unfold save_report. destruct (_ <=? 1)%Z; exact Hs.
Qed.

(** X19.  The base image the filters work on is always one of the stored
    entries: in every state the application can reach it is the image under
    ["Original"] or the one under one of the two noise titles. *)
Theorem base_image_is_a_stored_entry :
  forall (acts : list action) (base : Raster),
    let s := run init_app acts in
    processing_base_img s = Some base ->
    exists key,
      In key ["Original"; "Base: Gaussian Noise"; "Base: Salt & Pepper Noise"]
      /\ dict_get (results s) key = Some base.
Proof.
  intros acts. cbv zeta.
  assert (H : forall s,
             (forall base, processing_base_img s = Some base ->
                exists key,
                  In key ["Original"; "Base: Gaussian Noise";
                          "Base: Salt & Pepper Noise"]
                  /\ dict_get (results s) key = Some base) ->
             forall base, processing_base_img (run s acts) = Some base ->
               exists key,
                 In key ["Original"; "Base: Gaussian Noise";
                         "Base: Salt & Pepper Noise"]
                 /\ dict_get (results (run s acts)) key = Some base).
  { induction acts as [|a acts IH]; intros s Hs; [exact Hs |].
    apply (IH (fst (step s a))), step_base_stored, Hs. }
  apply H. discriminate.
Qed.

Lemma base_image_is_a_stored_entry_witness :
  let s := run init_app [UploadImage "/a/b.png" (Some [[10; 20]; [30; 40]]%Z);
                         SelectNoise "gaussian"; AddNoise no_noise;
                         ApplyMethod] in
  exists key,
    In key ["Original"; "Base: Gaussian Noise"; "Base: Salt & Pepper Noise"]
    /\ dict_get (results s) key = Some [[10; 20]; [30; 40]]%Z.
Proof.
  apply (base_image_is_a_stored_entry
           [UploadImage "/a/b.png" (Some [[10; 20]; [30; 40]]%Z);
            SelectNoise "gaussian"; AddNoise no_noise; ApplyMethod]).
  vm_compute. reflexivity.
Defined.
